(** * singleflight: duplicate-call suppression with a recycled call record

    A model of [singleflight.go] (package [singleflight]) as an interleaving
    transition system.  Every goroutine that calls [Group.Do] or
    [Group.Forget] is a thread with a program counter; the [Group], the heap
    of [call] records and the contexts are shared.  The transitions are
    executable functions [state -> option state], one for each block of the
    source that other goroutines can observe as a unit:

    - the critical sections of [g.mu] (lines 55-68 / 55-96, 132-139 and
      147-152) are one transition each: the mutex serialises them and none of
      them blocks;
    - [c.val, c.err = fn(ctx)] with the [recover] of the deferred function
      (lines 128-130 and 142);
    - the leader's epilogue up to and including [g.pool.Put(c)]
      (lines 102-116), during which no other goroutine can reach the record
      (it is neither in the map nor in the pool: [owner_inv]), and,
      separately, what follows the [Put] (lines 118-122), since from the
      [Put] on the record is shared again;
    - the two arms of the follower's [select] (lines 71-75 and 76-77).

    [fn] is opaque: its outcome is supplied by the environment when the
    transition that runs it is taken, and so are the answer of
    [sync.Pool.Get], the stack snapshot of [debug.Stack()] and the moment a
    context is cancelled.  A goroutine that calls [Do] or [Forget] again is
    a new thread. *)

From Stdlib Require Import ZArith Lia Strings.Byte.
From stdpp Require Import base tactics option list gmap strings.

Local Open Scope Z_scope.

(** Pointers to [call] records are indices into the heap; goroutines and
    contexts are numbered. *)
Abbreviation addr := nat (only parsing).
Abbreviation tid := nat (only parsing).
Abbreviation ctxid := nat (only parsing).

(** Go's [int] on a 64-bit platform: [dups++] wraps around. *)
Definition int_wrap (z : Z) : Z := (z + 2 ^ 63) mod 2 ^ 64 - 2 ^ 63.
Definition int_incr (z : Z) : Z := int_wrap (z + 1).

(** [chan struct{}] as far as the program uses it: nil, made, or closed. *)
Inductive chan := ChanNil | ChanOpen | ChanClosed.

Global Instance chan_eq_dec : EqDecision chan.
Proof. solve_decision. Defined.

(** [close(ch)] panics on a nil channel and on a closed one. *)
Definition chan_close (ch : chan) : option chan :=
  match ch with
  | ChanOpen => Some ChanClosed
  | ChanNil | ChanClosed => None
  end.

Section singleflight.
Context {K : Type} `{Countable K}.
Context {V : Type} `{Inhabited V}.
Context {Err P : Type}.

(** [type panicError struct { value any; stack []byte }] *)
Record panicError := PanicError {
  value : P;
  stack : list Byte.byte
}.

(** [type call[V any] struct] *)
Record call := Call {
  val : V;
  err : option Err;
  panicErr : option panicError;
  done : chan;
  dups : Z;
  forgotten : bool
}.

(** [new(call[V])]: every field has its zero value. *)
Definition new_call : call := Call inhabitant None None ChanNil 0 false.

(** [sync.Pool]: the items it currently holds, and whether [New] is set. *)
Record Pool := MkPool {
  items : list addr;
  New : bool
}.

(** [type Group[K comparable, V any] struct]; [calls] is [None] for the nil
    map.  [mu] has no field: its critical sections are the transitions. *)
Record Group := MkGroup {
  calls : option (gmap K addr);
  pool : Pool
}.

(** [NewGroup()] *)
Definition NewGroup : Group :=
  MkGroup (Some ∅) (MkPool [] true).

(** [var g Group[K, V]] *)
Definition zero_Group : Group :=
  MkGroup None (MkPool [] false).

(** ** Go maps *)

(** [c, ok := m[key]]: reading a nil map finds nothing. *)
Definition map_index (m : option (gmap K addr)) (key : K) : option addr :=
  match m with
  | Some m => m !! key
  | None => None
  end.

(** [delete(m, key)]: a no-op on a nil map. *)
Definition map_delete (m : option (gmap K addr)) (key : K) : option (gmap K addr) :=
  match m with
  | Some m => Some (delete key m)
  | None => None
  end.

(** [m[key] = c]: panics ([None]) on a nil map. *)
Definition map_assign (m : option (gmap K addr)) (key : K) (c : addr)
  : option (option (gmap K addr)) :=
  match m with
  | Some m => Some (Some (<[key := c]> m))
  | None => None
  end.

(** Lines 56-58: [if g.calls == nil { g.calls = make(map[K]*call[V]) }]. *)
Definition made (m : option (gmap K addr)) : option (gmap K addr) :=
  match m with
  | None => Some ∅
  | Some m => Some m
  end.

(** ** sync.Pool *)

(** What [Get] does is not determined by the program: it may hand out any
    item it holds, or behave as if it were empty. *)
Inductive pick := PickItem (i : nat) | PickNothing.

(** [p.Get()]: the chosen item is removed; on an empty answer [New] is
    called if it is set (here [new(call[V])]), else the result is nil. *)
Definition pool_Get (pk : pick) (p : Pool) (heap : list call)
  : option (option addr * Pool * list call) :=
  match pk with
  | PickItem i =>
      match items p !! i with
      | Some c => Some (Some c, MkPool (delete i (items p)) (New p), heap)
      | None => None
      end
  | PickNothing =>
      if New p then Some (Some (length heap), p, heap ++ [new_call])
      else Some (None, p, heap)
  end.

(** [p.Put(c)] *)
Definition pool_Put (c : addr) (p : Pool) : Pool :=
  MkPool (c :: items p) (New p).

(** ** Threads *)

(** How [fn(ctx)] ends: it returns, or it panics with a non-nil value. *)
Inductive outcome :=
| FnReturn (v : V) (e : option Err)
| FnPanic (r : P).

(** How a call of [Do] or [Forget] ends. *)
Inductive exit :=
| ExitFollower (v : V) (e : option Err)              (* line 75 *)
| ExitFollowerPanic (pe : panicError)                (* line 73 *)
| ExitCancelled (e : Err)                            (* line 77 *)
| ExitLeader (v : V) (shared : bool) (e : option Err) (* line 122 *)
| ExitLeaderPanic (pe : panicError)                  (* line 119 *)
| ExitForget                                         (* line 153 *)
| ExitFault.                                         (* a run-time panic of Do's own *)

(** The triple [(v, shared, err)] a call of [Do] returns, if it returns. *)
Definition returned (x : exit) : option (V * bool * option Err) :=
  match x with
  | ExitFollower v e => Some (v, true, e)
  | ExitCancelled e => Some (inhabitant, true, Some e)
  | ExitLeader v sh e => Some (v, sh, e)
  | _ => None
  end.

(** The panic a call of [Do] re-raises, if it does. *)
Definition raised (x : exit) : option panicError :=
  match x with
  | ExitFollowerPanic pe | ExitLeaderPanic pe => Some pe
  | _ => None
  end.

(** Program points, with the locals that are live there. *)
Inductive pc :=
| DoStart (ctx : ctxid) (key : K)                    (* before line 55 *)
| FollowerSelect (ctx : ctxid) (c : addr)            (* line 70 *)
| LeaderCall (ctx : ctxid) (key : K) (c : addr)      (* lines 99, 142 *)
| LeaderDefer (key : K) (c : addr)                   (* line 132 *)
| LeaderAfter (c : addr)                             (* line 102 *)
| LeaderExit (c : addr) (v : V) (e : option Err) (panicked : bool) (* line 118 *)
| ForgetStart (key : K)                              (* before line 147 *)
| Exited (x : exit).

(** ** Ghost state

    Not part of the program and never read by a guard: which call of [Do]
    last installed a record ([owner]), which leader and record a follower
    joined ([joined]), and the invocations of [fn] with their outcomes
    ([fnlog]). *)
Record ghost := MkGhost {
  owner : gmap addr tid;
  joined : gmap tid (tid * addr);
  fnlog : list (tid * outcome)
}.

Record state := MkState {
  grp : Group;
  heap : list call;
  threads : list pc;
  ctxs : gmap ctxid Err;
  gh : ghost
}.

Definition init (g : Group) : state :=
  MkState g [] [] ∅ (MkGhost ∅ ∅ []).

(** Field updates. *)
Definition set_pc (t : tid) (p : pc) (s : state) : state :=
  MkState (grp s) (heap s) (<[t := p]> (threads s)) (ctxs s) (gh s).
Definition set_heap (h : list call) (s : state) : state :=
  MkState (grp s) h (threads s) (ctxs s) (gh s).
Definition set_calls (m : option (gmap K addr)) (s : state) : state :=
  MkState (MkGroup m (pool (grp s))) (heap s) (threads s) (ctxs s) (gh s).
Definition set_pool (p : Pool) (s : state) : state :=
  MkState (MkGroup (calls (grp s)) p) (heap s) (threads s) (ctxs s) (gh s).
Definition set_gh (g : ghost) (s : state) : state :=
  MkState (grp s) (heap s) (threads s) (ctxs s) g.

Definition set_owner (c : addr) (t : tid) (g : ghost) : ghost :=
  MkGhost (<[c := t]> (owner g)) (joined g) (fnlog g).
Definition set_joined (t : tid) (c : addr) (g : ghost) : ghost :=
  match owner g !! c with
  | Some l => MkGhost (owner g) (<[t := (l, c)]> (joined g)) (fnlog g)
  | None => g
  end.
Definition log_fn (t : tid) (o : outcome) (g : ghost) : ghost :=
  MkGhost (owner g) (joined g) (fnlog g ++ [(t, o)]).

(** ** Transitions *)

(** Lines 62-66: [c.dups++] and the lazy [make(chan struct{})]. *)
Definition join (r : call) : call :=
  Call (val r) (err r) (panicErr r)
       (match done r with ChanNil => ChanOpen | d => d end)
       (int_incr (dups r)) (forgotten r).

(** Lines 90-92: the leader's reset. *)
Definition reset (r : call) : call :=
  Call (val r) (err r) None (done r) 0 false.

(** [Do], lines 55-68 (follower) and 55-96 (leader). *)
Definition Do_lock (t : tid) (pk : pick) (s : state) : option state :=
  match threads s !! t with
  | Some (DoStart ctx key) =>
      let m := made (calls (grp s)) in
      match map_index m key with
      | Some c =>
          match heap s !! c with
          | Some r =>
              Some (set_pc t (FollowerSelect ctx c)
                   (set_heap (<[c := join r]> (heap s))
                   (set_calls m
                   (set_gh (set_joined t c (gh s)) s))))
          | None => None
          end
      | None =>
          match pool_Get pk (pool (grp s)) (heap s) with
          | Some (got, p', h1) =>
              let '(c, h2) := match got with
                              | Some c => (c, h1)
                              | None => (length h1, h1 ++ [new_call])
                              end in
              match h2 !! c with
              | Some r =>
                  let s1 := set_heap (<[c := reset r]> h2) (set_pool p' s) in
                  match map_assign m key c with
                  | Some m' =>
                      Some (set_pc t (LeaderCall ctx key c)
                           (set_calls m'
                           (set_gh (set_owner c t (gh s)) s1)))
                  | None => Some (set_pc t (Exited ExitFault) s1)
                  end
              | None => None
              end
          | None => None
          end
      end
  | _ => None
  end.

(** [doCall], line 142, and lines 128-130 of its deferred function:
    [fn] returns and its results are stored, or it panics and the deferred
    function records the recovered value with [stk = debug.Stack()]. *)
Definition store_outcome (o : outcome) (stk : list Byte.byte) (r : call) : call :=
  match o with
  | FnReturn v e => Call v e (panicErr r) (done r) (dups r) (forgotten r)
  | FnPanic x =>
      Call (val r) (err r) (Some (PanicError x stk)) (done r) (dups r) (forgotten r)
  end.

Definition doCall_fn (t : tid) (o : outcome) (stk : list Byte.byte) (s : state)
  : option state :=
  match threads s !! t with
  | Some (LeaderCall ctx key c) =>
      match heap s !! c with
      | Some r =>
          Some (set_pc t (LeaderDefer key c)
               (set_heap (<[c := store_outcome o stk r]> (heap s))
               (set_gh (log_fn t o (gh s)) s)))
      | None => None
      end
  | _ => None
  end.

(** [doCall], lines 132-139 of the deferred function. *)
Definition doCall_deferred (t : tid) (s : state) : option state :=
  match threads s !! t with
  | Some (LeaderDefer key c) =>
      match heap s !! c with
      | Some r =>
          let closed := match done r with
                        | ChanNil => Some ChanNil
                        | d => chan_close d
                        end in
          match closed with
          | Some d =>
              let r' := Call (val r) (err r) (panicErr r) d (dups r) (forgotten r) in
              let m := if forgotten r then calls (grp s)
                       else map_delete (calls (grp s)) key in
              Some (set_pc t (LeaderAfter c)
                   (set_heap (<[c := r']> (heap s))
                   (set_calls m s)))
          | None => Some (set_pc t (Exited ExitFault) s)
          end
      | None => None
      end
  | _ => None
  end.

(** Line 110: may the record go back to the pool? *)
Definition recyclable (r : call) : bool :=
  negb (bool_decide (panicErr r ≠ None)) && (dups r =? 0)
  && bool_decide (done r = ChanNil).

(** Lines 113-114. *)
Definition scrub (r : call) : call :=
  Call inhabitant None (panicErr r) (done r) (dups r) (forgotten r).

(** [Do], lines 102-116. *)
Definition Do_recycle (t : tid) (s : state) : option state :=
  match threads s !! t with
  | Some (LeaderAfter c) =>
      match heap s !! c with
      | Some r =>
          let panicked := bool_decide (panicErr r ≠ None) in
          let s1 := if recyclable r
                    then set_pool (pool_Put c (pool (grp s)))
                           (set_heap (<[c := scrub r]> (heap s)) s)
                    else s in
          Some (set_pc t (LeaderExit c (val r) (err r) panicked) s1)
      | None => None
      end
  | _ => None
  end.

(** [Do], lines 118-122.  [c.panicErr] and [c.dups] are read here. *)
Definition Do_return (t : tid) (s : state) : option state :=
  match threads s !! t with
  | Some (LeaderExit c v e panicked) =>
      match heap s !! c with
      | Some r =>
          let x := if panicked
                   then match panicErr r with
                        | Some pe => ExitLeaderPanic pe
                        | None => ExitFault
                        end
                   else ExitLeader v (0 <? dups r) e in
          Some (set_pc t (Exited x) s)
      | None => None
      end
  | _ => None
  end.

(** [Do], lines 71-75: the [select] receives from the closed [done]. *)
Definition Do_select_done (t : tid) (s : state) : option state :=
  match threads s !! t with
  | Some (FollowerSelect ctx c) =>
      match heap s !! c with
      | Some r =>
          match done r with
          | ChanClosed =>
              let x := match panicErr r with
                       | Some pe => ExitFollowerPanic pe
                       | None => ExitFollower (val r) (err r)
                       end in
              Some (set_pc t (Exited x) s)
          | _ => None
          end
      | None => None
      end
  | _ => None
  end.

(** [Do], lines 76-77: the [select] receives from [ctx.Done()]. *)
Definition Do_select_ctx (t : tid) (s : state) : option state :=
  match threads s !! t with
  | Some (FollowerSelect ctx c) =>
      match ctxs s !! ctx with
      | Some e => Some (set_pc t (Exited (ExitCancelled e)) s)
      | None => None
      end
  | _ => None
  end.

(** [Forget], lines 147-152. *)
Definition Forget (t : tid) (s : state) : option state :=
  match threads s !! t with
  | Some (ForgetStart key) =>
      let h := match map_index (calls (grp s)) key with
               | Some c =>
                   match heap s !! c with
                   | Some r =>
                       <[c := Call (val r) (err r) (panicErr r) (done r) (dups r) true]>
                         (heap s)
                   | None => heap s
                   end
               | None => heap s
               end in
      Some (set_pc t (Exited ExitForget)
           (set_heap h
           (set_calls (map_delete (calls (grp s)) key) s)))
  | _ => None
  end.

(** The environment: goroutines are started, contexts are cancelled, the
    pool drops an item. *)
Definition spawn (p : pc) (s : state) : state :=
  MkState (grp s) (heap s) (threads s ++ [p]) (ctxs s) (gh s).

Definition cancel (ctx : ctxid) (e : Err) (s : state) : option state :=
  match ctxs s !! ctx with
  | None => Some (MkState (grp s) (heap s) (threads s) (<[ctx := e]> (ctxs s)) (gh s))
  | Some _ => None
  end.

Definition pool_drop (i : nat) (s : state) : option state :=
  match items (pool (grp s)) !! i with
  | Some _ =>
      Some (set_pool (MkPool (delete i (items (pool (grp s)))) (New (pool (grp s)))) s)
  | None => None
  end.

Inductive label :=
| GoDo (ctx : ctxid) (key : K)        (* go g.Do(ctx, key, fn) *)
| GoForget (key : K)                  (* go g.Forget(key) *)
| Lock (t : tid) (pk : pick)
| Fn (t : tid) (o : outcome) (stk : list Byte.byte)
| Deferred (t : tid)
| Recycle (t : tid)
| Ret (t : tid)
| SelectDone (t : tid)
| SelectCtx (t : tid)
| DoForget (t : tid)
| Cancel (ctx : ctxid) (e : Err)
| PoolDrop (i : nat).

Definition step (l : label) (s : state) : option state :=
  match l with
  | GoDo ctx key => Some (spawn (DoStart ctx key) s)
  | GoForget key => Some (spawn (ForgetStart key) s)
  | Lock t pk => Do_lock t pk s
  | Fn t o stk => doCall_fn t o stk s
  | Deferred t => doCall_deferred t s
  | Recycle t => Do_recycle t s
  | Ret t => Do_return t s
  | SelectDone t => Do_select_done t s
  | SelectCtx t => Do_select_ctx t s
  | DoForget t => Forget t s
  | Cancel ctx e => cancel ctx e s
  | PoolDrop i => pool_drop i s
  end.

(** A schedule is run from left to right. *)
Definition run (ls : list label) (s : state) : option state :=
  foldl (λ acc l, acc ≫= step l) (Some s) ls.

(** The states of a group made by [NewGroup()] or declared as a zero
    value, after any schedule. *)
Definition reachable (ls : list label) (s : state) : Prop :=
  run ls (init NewGroup) = Some s ∨ run ls (init zero_Group) = Some s.


(** ** The invariant of the reachable states *)

Definition mapped (s : state) (key : K) (c : addr) : Prop :=
  map_index (calls (grp s)) key = Some c.
Definition pooled (s : state) (c : addr) : Prop :=
  c ∈ items (pool (grp s)).
Definition logged (s : state) (t : tid) (o : outcome) : Prop :=
  (t, o) ∈ fnlog (gh s).

(** How often thread [t] has invoked [fn]. *)
Definition invocations (s : state) (t : tid) : nat :=
  length (filter (λ x, x.1 = t) (fnlog (gh s))).

(** The record is as [Put] leaves it. *)
Definition clean (r : call) : Prop :=
  val r = inhabitant ∧ err r = None ∧ panicErr r = None
  ∧ done r = ChanNil ∧ dups r = 0.

(** The record holds what [fn] produced. *)
Definition stored (o : outcome) (r : call) : Prop :=
  match o with
  | FnReturn v e => val r = v ∧ err r = e ∧ panicErr r = None
  | FnPanic x => ∃ stk, panicErr r = Some (PanicError x stk)
  end.

(** The entry of [key] is the record exactly when it was not forgotten. *)
Definition map_ok (s : state) (key : K) (c : addr) (r : call) : Prop :=
  if forgotten r then ¬ mapped s key c else mapped s key c.

(** The leader [l] is between its insertion of [c] under [key] and the
    critical section of its deferred function. *)
Definition in_flight (s : state) (l : tid) (key : K) (c : addr) : Prop :=
  (∃ ctx, threads s !! l = Some (LeaderCall ctx key c))
  ∨ threads s !! l = Some (LeaderDefer key c).

(** The leader of [c] is past its deferred function: the record either
    went through [Put] or keeps the outcome for good. *)
Definition settled (s : state) (c : addr) (l : tid) (r : call) : Prop :=
  done r ≠ ChanOpen
  ∧ ∃ o, logged s l o
         ∧ ((clean r ∧ ∃ v e, o = FnReturn v e)
            ∨ (¬ pooled s c ∧ recyclable r = false ∧ stored o r)).

(** What holds of a record [c] with contents [r] whose owner [l] is at [p]. *)
Definition owner_inv (s : state) (c : addr) (l : tid) (r : call) (p : pc) : Prop :=
  match p with
  | LeaderCall _ key c' =>
      c' = c ∧ ¬ pooled s c ∧ done r ≠ ChanClosed ∧ panicErr r = None
      ∧ map_ok s key c r
  | LeaderDefer key c' =>
      c' = c ∧ ¬ pooled s c ∧ done r ≠ ChanClosed
      ∧ (∃ o, logged s l o ∧ stored o r) ∧ map_ok s key c r
  | LeaderAfter c' =>
      c' = c ∧ ¬ pooled s c ∧ done r ≠ ChanOpen
      ∧ (∃ o, logged s l o ∧ stored o r)
  | LeaderExit c' _ _ _ => c' = c ∧ settled s c l r
  | Exited (ExitLeader _ sh _) => settled s c l r ∧ sh = (0 <? dups r)
  | Exited (ExitLeaderPanic pe) => settled s c l r ∧ panicErr r = Some pe
  | _ => False
  end.

(** The leader's locals after line 104 agree with what [fn] produced. *)
Definition agrees (s : state) (t : tid) (c : addr) (o : outcome)
    (v : V) (e : option Err) (panicked : bool) : Prop :=
  match o with
  | FnReturn v' e' => v = v' ∧ e = e' ∧ panicked = false
  | FnPanic _ => panicked = true ∧ owner (gh s) !! c = Some t
  end.

Definition thread_inv (s : state) (t : tid) (p : pc) : Prop :=
  match p with
  | FollowerSelect _ c => ∃ l, joined (gh s) !! t = Some (l, c)
  | LeaderCall _ _ c | LeaderDefer _ c | LeaderAfter c =>
      owner (gh s) !! c = Some t
  | LeaderExit c v e panicked =>
      is_Some (heap s !! c) ∧ ∃ o, logged s t o ∧ agrees s t c o v e panicked
  | Exited (ExitFollower v e) =>
      ∃ l c r, joined (gh s) !! t = Some (l, c) ∧ heap s !! c = Some r
               ∧ done r = ChanClosed ∧ panicErr r = None
               ∧ val r = v ∧ err r = e
  | Exited (ExitFollowerPanic pe) =>
      ∃ l c r, joined (gh s) !! t = Some (l, c) ∧ heap s !! c = Some r
               ∧ done r = ChanClosed ∧ panicErr r = Some pe
  | Exited (ExitCancelled _) => is_Some (joined (gh s) !! t)
  | Exited (ExitLeader v _ e) => logged s t (FnReturn v e)
  | Exited (ExitLeaderPanic pe) =>
      logged s t (FnPanic (value pe)) ∧ ∃ c, owner (gh s) !! c = Some t
  | Exited ExitFault => False
  | _ => True
  end.

Definition follower_pc (p : pc) : Prop :=
  match p with
  | FollowerSelect _ _
  | Exited (ExitFollower _ _)
  | Exited (ExitFollowerPanic _)
  | Exited (ExitCancelled _) => True
  | _ => False
  end.

Definition after_fn (p : pc) : Prop :=
  match p with
  | LeaderDefer _ _ | LeaderAfter _ | LeaderExit _ _ _ _
  | Exited (ExitLeader _ _ _) | Exited (ExitLeaderPanic _) => True
  | _ => False
  end.

(** [n] is the number of transitions taken so far. *)
Record inv (n : nat) (s : state) : Prop := MkInv {
  inv_thread : ∀ t p, threads s !! t = Some p → thread_inv s t p;
  inv_owner : ∀ c l, owner (gh s) !! c = Some l →
    ∃ r p, heap s !! c = Some r ∧ threads s !! l = Some p ∧ owner_inv s c l r p;
  inv_joined : ∀ t l c, joined (gh s) !! t = Some (l, c) →
    ∃ r p, heap s !! c = Some r ∧ threads s !! t = Some p ∧ follower_pc p
           ∧ owner (gh s) !! c = Some l ∧ done r ≠ ChanNil
           ∧ (Z.of_nat n < 2 ^ 63 → 1 ≤ dups r);
  inv_log : ∀ t o, logged s t o →
    ∃ p, threads s !! t = Some p ∧ after_fn p;
  inv_log_nodup : NoDup (fnlog (gh s)).*1;
  inv_map : ∀ key c, mapped s key c →
    ∃ l r, owner (gh s) !! c = Some l ∧ heap s !! c = Some r
           ∧ forgotten r = false ∧ in_flight s l key c;
  inv_pool : ∀ c, pooled s c → ∃ r, heap s !! c = Some r ∧ clean r;
  inv_pool_nodup : NoDup (items (pool (grp s)));
  inv_dups : ∀ c r, heap s !! c = Some r →
    Z.of_nat n < 2 ^ 63 → 0 ≤ dups r ≤ Z.of_nat n
}.


(** What a follower has read from a closed record stays as it is. *)
Definition keeps (r r' : call) : Prop :=
  done r = ChanClosed →
  done r' = ChanClosed ∧ val r' = val r ∧ err r' = err r
  ∧ panicErr r' = panicErr r.

(** The records whose owner the invariant of a thread at [p] refers to. *)
Definition needs_owner (s : state) (t : tid) (p : pc) (c : addr) : Prop :=
  match p with
  | LeaderCall _ _ c' | LeaderDefer _ c' | LeaderAfter c' => c' = c
  | LeaderExit c' _ _ _ => c' = c ∧ ∃ x, logged s t (FnPanic x)
  | Exited (ExitLeaderPanic _) => True
  | _ => False
  end.

(** The thread a transition belongs to; the environment's have none. *)
Definition actor (l : label) : option tid :=
  match l with
  | Lock t _ | Fn t _ _ | Deferred t | Recycle t | Ret t
  | SelectDone t | SelectCtx t | DoForget t => Some t
  | GoDo _ _ | GoForget _ | Cancel _ _ | PoolDrop _ => None
  end.

(** A record that is not in the pool and may not go there is [discarded]. *)
Definition discarded (s : state) (c : addr) : Prop :=
  (∃ r, heap s !! c = Some r ∧ recyclable r = false) ∧ ¬ pooled s c.

(** ** Further notions *)

(** [func (p *panicError) Unwrap() error], lines 165-171.  [as_error] is the
    type assertion [p.value.(error)]: the error a value of type [any] is,
    if it is one. *)
Definition Unwrap (as_error : P → option Err) (p : panicError) : option Err :=
  match as_error (value p) with
  | Some e => Some e
  | None => None
  end.

(** The state with the map made and [New] set: what [NewGroup()] has from
    the start and a zero value lacks. *)
Definition upgrade (s : state) : state :=
  MkState (MkGroup (made (calls (grp s)))
                   (MkPool (items (pool (grp s))) true))
          (heap s) (threads s) (ctxs s) (gh s).



(** Every record with a channel or a non-zero [dups] was joined by some
    follower of the call that owns it. *)
Definition witnessed (s : state) : Prop :=
  ∀ c l r, owner (gh s) !! c = Some l → heap s !! c = Some r →
           dups r ≠ 0 ∨ done r ≠ ChanNil →
           ∃ t, joined (gh s) !! t = Some (l, c).

(** ** Schedules used as examples *)

(** The state a schedule leads to from a group [g]. *)
Definition after (g : Group) (ls : list label) : state :=
  default (init g) (run ls (init g)).

(** A leader, a follower that joins while [fn] runs, and both return. *)
Definition herd (key : K) (o : outcome) (stk : list Byte.byte) : list label :=
  [GoDo 0 key; Lock 0 PickNothing; GoDo 0 key; Lock 1 PickNothing;
   Fn 0 o stk; Deferred 0; SelectDone 1; Recycle 0; Ret 0].

(** A leader and a follower whose context is cancelled while [fn] runs. *)
Definition impatient (key : K) (e : Err) : list label :=
  [GoDo 0 key; Lock 0 PickNothing; GoDo 1 key; Lock 1 PickNothing;
   Cancel 1 e].

(** A solitary leader up to the end of its deferred function. *)
Definition solo (key : K) (o : outcome) : list label :=
  [GoDo 0 key; Lock 0 PickNothing; Fn 0 o []; Deferred 0].

(** [Forget] while the leader runs [fn]; the leader then finishes alone. *)
Definition forgotten_solo (key : K) (o : outcome) : list label :=
  [GoDo 0 key; Lock 0 PickNothing; GoForget key; DoForget 1;
   Fn 0 o []; Deferred 0; Recycle 0].

(** [Forget] while the leader runs [fn], then a second leader for the same
    key; the first leader's [fn] has returned and its deferred function is
    about to run. *)
Definition forgotten_then_new (key : K) (o : outcome) : list label :=
  [GoDo 0 key; Lock 0 PickNothing; GoForget key; DoForget 1;
   GoDo 0 key; Lock 2 PickNothing; Fn 0 o []].

(** [Forget] while the leader runs [fn], then another call of [Do] for the
    same key arrives, [fn] still running. *)
Definition forgotten_arrival (key : K) : list label :=
  [GoDo 0 key; Lock 0 PickNothing; GoForget key; DoForget 1; GoDo 0 key].

(** A leader and a thread that is about to call [Forget]. *)
Definition forgetting (key : K) : list label :=
  [GoDo 0 key; Lock 0 PickNothing; GoForget key].

(** A solitary leader puts its record into the pool and is preempted
    before line 118; a second leader takes the record from the pool for
    another key and a follower joins it; then the first leader returns. *)
Definition stale (key1 key2 : K) (v : V) : list label :=
  [GoDo 0 key1; Lock 0 PickNothing; Fn 0 (FnReturn v None) []; Deferred 0;
   Recycle 0;
   GoDo 0 key2; Lock 1 (PickItem 0); GoDo 0 key2; Lock 2 PickNothing;
   Ret 0].

(** Two calls on a zero-value group, not yet in their critical sections. *)
Definition first_use (key : K) : list label :=
  [GoDo 0 key; GoForget key].

(** ** Auxiliary facts *)

Lemma logged_inj (s : state) t o1 o2 :
  NoDup (fnlog (gh s)).*1 → logged s t o1 → logged s t o2 → o1 = o2.
Proof.
  unfold logged. generalize (fnlog (gh s)) as l.
  induction l as [|[t' o'] l IH]; simpl; intros Hnd H1 H2.
  - by apply elem_of_nil in H1.
  - apply NoDup_cons in Hnd as [Hni Hnd].
    apply elem_of_cons in H1, H2. destruct H1 as [E1|H1], H2 as [E2|H2].
    + congruence.
    + injection E1 as -> ->. exfalso. apply Hni.
      apply list_elem_of_fmap. by exists (t', o2).
    + injection E2 as -> ->. exfalso. apply Hni.
      apply list_elem_of_fmap. by exists (t', o1).
    + auto.
Qed.

Lemma owner_inv_mono (s s' : state) c l r p :
  (pooled s' c → pooled s c) →
  (∀ key, mapped s' key c ↔ mapped s key c) →
  (∀ o, logged s l o → logged s' l o) →
  owner_inv s c l r p → owner_inv s' c l r p.
Proof.
  intros Hp Hm Hl.
  assert (Hset : settled s c l r → settled s' c l r).
  { intros (Hd & o & Ho & Hcase). split; [done|]. exists o. split; [auto|].
    destruct Hcase as [?|(? & ? & ?)]; [by left|right; auto]. }
  assert (Hmap : ∀ key, map_ok s key c r → map_ok s' key c r).
  { intros key. unfold map_ok. destruct (forgotten r); rewrite Hm; auto. }
  destruct p as [| | | | | |key|[]]; simpl; try done.
  - intros (-> & ? & ? & ? & ?). repeat split; auto.
  - intros (-> & ? & ? & (o & ? & ?) & ?). repeat split; eauto.
  - intros (-> & ? & ? & (o & ? & ?)). repeat split; eauto.
  - intros (-> & ?). auto.
  - intros (? & ?). auto.
  - intros (? & ?). auto.
Qed.

Lemma inv_init (g : Group) :
  items (pool g) = [] → map_index (calls g) = (λ _, None) → inv 0 (init g).
Proof.
  intros Hi Hm. split; simpl.
  - intros t p Ht. by rewrite lookup_nil in Ht.
  - intros c l Hc. by rewrite lookup_empty in Hc.
  - intros t l c Hc. by rewrite lookup_empty in Hc.
  - unfold logged. simpl. intros ?? Hl. by apply elem_of_nil in Hl.
  - constructor.
  - unfold mapped. simpl. rewrite Hm. done.
  - unfold pooled. simpl. rewrite Hi. intros ? Hc. by apply elem_of_nil in Hc.
  - rewrite Hi. constructor.
  - intros ?? Hc. by rewrite lookup_nil in Hc.
Qed.


Lemma inv_S n (s : state) : inv n s → inv (S n) s.
Proof.
  intros [HT HO HJ HL HLn HM HP HPn HD]. split; auto.
  - intros t l c Hj. destruct (HJ t l c Hj) as (r & p & ? & ? & ? & ? & ? & Hd).
    exists r, p. repeat split; auto. intros. apply Hd. lia.
  - intros c r Hc Hn. assert (0 ≤ dups r ≤ Z.of_nat n) by (apply (HD c); [done|lia]).
    lia.
Qed.

(** ** Every transition preserves the invariant *)

Lemma inv_spawn n (s : state) (p : pc) :
  thread_inv s (length (threads s)) p → inv n s → inv n (spawn p s).
Proof.
  intros Hp [HT HO HJ HL HLn HM HP HPn HD]. split; simpl; auto.
  - intros t p' Ht. apply lookup_snoc_Some in Ht as [[_ Ht]|[-> ->]].
    + by apply HT.
    + done.
  - intros c l Hc. destruct (HO c l Hc) as (r & p' & ? & ? & ?).
    exists r, p'. repeat split; auto. by apply lookup_app_l_Some.
  - intros t l c Hj. destruct (HJ t l c Hj) as (r & p' & ? & ? & ?).
    exists r, p'. repeat split; auto; try tauto. by apply lookup_app_l_Some.
  - intros t o Hl. destruct (HL t o Hl) as (p' & ? & ?).
    exists p'. split; auto. by apply lookup_app_l_Some.
  - intros key c Hm. destruct (HM key c Hm) as (l & r & ? & ? & ? & Hf).
    exists l, r. repeat split; auto.
    destruct Hf as [[ctx Hf]|Hf]; [left; exists ctx|right];
      by apply lookup_app_l_Some.
Qed.


(** A transition that only moves thread [t] from [p0] to [p']. *)
Lemma inv_set_pc n (s : state) t p0 p' :
  inv n s → threads s !! t = Some p0 →
  thread_inv s t p' →
  (∀ c r, owner (gh s) !! c = Some t → heap s !! c = Some r →
          owner_inv s c t r p0 → owner_inv s c t r p') →
  (follower_pc p0 → follower_pc p') →
  (after_fn p0 → after_fn p') →
  (∀ key c, ¬ in_flight s t key c) →
  inv n (set_pc t p' s).
Proof.
  intros [HT HO HJ HL HLn HM HP HPn HD] Ht Hp' Hown Hfol Haft Hfl.
  assert (Hlt : (t < length (threads s))%nat) by eauto using lookup_lt_Some.
  split; simpl; auto.
  - intros t' p Ht'. apply list_lookup_insert_Some in Ht' as [(<- & <- & _)|[? Ht']].
    + done.
    + by apply HT.
  - intros c l Hc. destruct (HO c l Hc) as (r & p & Hr & Hl & Hi).
    destruct (decide (l = t)) as [->|Hne].
    + exists r, p'. rewrite list_lookup_insert_eq by done.
      repeat split; auto. apply Hown; auto. congruence.
    + exists r, p. rewrite list_lookup_insert_ne by done. auto.
  - intros t' l c Hj. destruct (HJ t' l c Hj) as (r & p & Hr & Hl & Hf & Hrest).
    destruct (decide (t' = t)) as [->|Hne].
    + exists r, p'. rewrite list_lookup_insert_eq by done.
      repeat split; auto; try tauto. apply Hfol. congruence.
    + exists r, p. rewrite list_lookup_insert_ne by done. auto.
  - intros t' o Hl. destruct (HL t' o Hl) as (p & Hl' & Ha).
    destruct (decide (t' = t)) as [->|Hne].
    + exists p'. rewrite list_lookup_insert_eq by done. split; auto.
      apply Haft. congruence.
    + exists p. rewrite list_lookup_insert_ne by done. auto.
  - intros key c Hm. destruct (HM key c Hm) as (l & r & ? & ? & ? & Hf).
    exists l, r. repeat split; auto.
    destruct (decide (l = t)) as [->|Hne]; [by apply Hfl in Hf|].
    unfold in_flight in *. simpl. by rewrite list_lookup_insert_ne by done.
Qed.

Lemma inv_Do_return n (s s' : state) t :
  inv n s → Do_return t s = Some s' → inv n s'.
Proof.
  intros Hinv Hs. unfold Do_return in Hs.
  destruct (threads s !! t) as [[| | | | |c v e pk| |]|] eqn:Ht; try done.
  destruct (heap s !! c) as [r|] eqn:Hr; [|done]. injection Hs as <-.
  pose proof (inv_thread _ _ Hinv _ _ Ht) as (_ & o & Hlog & Hag).
  assert (Hfl : ∀ key c', ¬ in_flight s t key c').
  { intros key c' [[ctx Hf]|Hf]; congruence. }
  destruct pk.
  - destruct o as [v' e'|x]; simpl in Hag; [by destruct Hag as (_ & _ & ?)|].
    destruct Hag as [_ Hown].
    destruct (inv_owner _ _ Hinv _ _ Hown) as (r' & p & Hr' & Hp & Hi).
    rewrite Hr in Hr'. rewrite Ht in Hp. simplify_eq. simpl in Hi.
    destruct Hi as (_ & Hset). pose proof Hset as (_ & o' & Hlog' & Hcase).
    assert (o' = FnPanic x) as -> by eauto using logged_inj, inv_log_nodup.
    destruct Hcase as [(_ & ? & ? & ?)|(_ & _ & stk & Hpe)]; [done|].
    rewrite Hpe. eapply inv_set_pc; eauto; try done.
    + simpl. eauto.
    + intros c' r2 Hown' Hr2 (<- & _). by simplify_eq.
  - destruct o as [v' e'|x]; simpl in Hag; [|by destruct Hag as [? _]].
    destruct Hag as (-> & -> & _).
    eapply inv_set_pc; eauto; try done.
    intros c' r2 Hown' Hr2 (<- & ?). by simplify_eq.
Qed.


Lemma inv_Do_select_done n (s s' : state) t :
  inv n s → Do_select_done t s = Some s' → inv n s'.
Proof.
  intros Hinv Hs. unfold Do_select_done in Hs.
  destruct (threads s !! t) as [[|ctx c| | | | | |]|] eqn:Ht; try done.
  destruct (heap s !! c) as [r|] eqn:Hr; [|done].
  destruct (done r) eqn:Hd; try done. injection Hs as <-.
  pose proof (inv_thread _ _ Hinv _ _ Ht) as [l Hj].
  eapply inv_set_pc; eauto; try done.
  - destruct (panicErr r) as [pe|] eqn:Hpe; simpl.
    + exists l, c, r. done.
    + exists l, c, r. done.
  - by destruct (panicErr r).
  - intros key c' [[ctx' Hf]|Hf]; congruence.
Qed.

Lemma inv_Do_select_ctx n (s s' : state) t :
  inv n s → Do_select_ctx t s = Some s' → inv n s'.
Proof.
  intros Hinv Hs. unfold Do_select_ctx in Hs.
  destruct (threads s !! t) as [[|ctx c| | | | | |]|] eqn:Ht; try done.
  destruct (ctxs s !! ctx) as [e|] eqn:He; [|done]. injection Hs as <-.
  pose proof (inv_thread _ _ Hinv _ _ Ht) as [l Hj].
  eapply inv_set_pc; eauto; try done.
  - simpl. eauto.
  - intros key c' [[ctx' Hf]|Hf]; congruence.
Qed.

Lemma inv_cancel n (s s' : state) ctx e :
  inv n s → cancel ctx e s = Some s' → inv n s'.
Proof.
  intros [HT HO HJ HL HLn HM HP HPn HD] Hs. unfold cancel in Hs.
  destruct (ctxs s !! ctx); [done|]. injection Hs as <-.
  split; simpl; auto.
Qed.

Lemma not_elem_of_delete (l : list nat) i c :
  NoDup l → l !! i = Some c → c ∉ delete i l.
Proof.
  intros Hnd Hi Hin. apply list_elem_of_lookup in Hin as [j Hj].
  rewrite list_lookup_delete in Hj. case_decide.
  - assert (i = j) by eauto using NoDup_lookup. lia.
  - assert (i = S j) by eauto using NoDup_lookup. lia.
Qed.

Lemma inv_pool_drop n (s s' : state) i :
  inv n s → pool_drop i s = Some s' → inv n s'.
Proof.
  intros [HT HO HJ HL HLn HM HP HPn HD] Hs. unfold pool_drop in Hs.
  destruct (items (pool (grp s)) !! i) as [c0|] eqn:Hi; [|done].
  injection Hs as <-.
  split; simpl; auto.
  - intros c l Hc. destruct (HO c l Hc) as (r & p & ? & ? & Hi').
    exists r, p. repeat split; auto.
    eapply owner_inv_mono; [| | |exact Hi']; try done.
    unfold pooled. simpl. apply list_elem_of_delete_inv.
  - intros c Hc. apply HP. unfold pooled in *. simpl in Hc.
    by apply list_elem_of_delete_inv in Hc.
  - eapply sublist_NoDup; [exact HPn|apply sublist_delete].
Qed.


Lemma thread_inv_mono (s s' : state) t p :
  joined (gh s') !! t = joined (gh s) !! t →
  (∀ c, owner (gh s) !! c = Some t → needs_owner s t p c →
        owner (gh s') !! c = Some t) →
  (∀ o, logged s t o → logged s' t o) →
  (∀ c r, heap s !! c = Some r → ∃ r', heap s' !! c = Some r' ∧ keeps r r') →
  thread_inv s t p → thread_inv s' t p.
Proof.
  intros Hj Ho Hl Hh.
  destruct p as [| | | | |c v e pk| |[]]; simpl; rewrite ?Hj; auto.
  - intros ?. by apply Ho.
  - intros ?. by apply Ho.
  - intros ?. by apply Ho.
  - intros ([r Hr] & o & Hlog & Hag). split.
    + destruct (Hh _ _ Hr) as (r' & -> & _). eauto.
    + exists o. split; [auto|]. destruct o as [|x]; simpl in *; [done|].
      destruct Hag as [-> Hc]. split; [done|]. apply Ho; [done|]. simpl. eauto.
  - intros (l & c & r & ? & Hr & Hd & ? & ? & ?).
    destruct (Hh _ _ Hr) as (r' & Hr' & Hk). destruct (Hk Hd) as (? & ? & ? & ?).
    exists l, c, r'. repeat split; congruence.
  - intros (l & c & r & ? & Hr & Hd & ?).
    destruct (Hh _ _ Hr) as (r' & Hr' & Hk). destruct (Hk Hd) as (? & ? & ? & ?).
    exists l, c, r'. repeat split; congruence.
  - intros (? & c & Hc). split; [auto|]. exists c. by apply Ho.
Qed.

(** Updating one record of the heap. *)
Lemma heap_update_keeps (h : list call) c0 r0 r0' :
  h !! c0 = Some r0 → keeps r0 r0' →
  ∀ c r, h !! c = Some r → ∃ r', <[c0 := r0']> h !! c = Some r' ∧ keeps r r'.
Proof.
  intros H0' Hk c r Hr. destruct (decide (c = c0)) as [->|Hne].
  - exists r0'. rewrite list_lookup_insert_eq by eauto using lookup_lt_Some.
    split; [done|]. by simplify_eq.
  - exists r. rewrite list_lookup_insert_ne by done. split; [done|]. by intros ?.
Qed.

Lemma inv_doCall_fn n (s s' : state) t o stk :
  inv n s → doCall_fn t o stk s = Some s' → inv n s'.
Proof.
  intros Hinv Hs. unfold doCall_fn in Hs.
  destruct (threads s !! t) as [[| |ctx key c0| | | | |]|] eqn:Ht; try done.
  destruct (heap s !! c0) as [r0|] eqn:Hr0; [|done]. injection Hs as <-.
  pose proof (inv_thread _ _ Hinv _ _ Ht) as Hown0. simpl in Hown0.
  destruct (inv_owner _ _ Hinv _ _ Hown0) as (r & p & Hr & Hp & Hi).
  rewrite Hr0 in Hr. rewrite Ht in Hp. simplify_eq. simpl in Hi.
  destruct Hi as (_ & Hnp & Hd & Hpe & Hmap).
  assert (Hlt : (t < length (threads s))%nat) by eauto using lookup_lt_Some.
  assert (Hc0 : (c0 < length (heap s))%nat) by eauto using lookup_lt_Some.
  assert (Hnl : ∀ o', ¬ logged s t o').
  { intros o' Hl. destruct (inv_log _ _ Hinv _ _ Hl) as (p & Hp & Ha).
    rewrite Ht in Hp. by simplify_eq. }
  set (r0' := store_outcome o stk r) in *.
  assert (Hst : stored o r0').
  { subst r0'. destruct o; simpl; eauto. }
  assert (Hkeep : keeps r r0') by (intros ?; done).
  assert (Hframe : ∀ c l r1 p, c ≠ c0 → owner_inv s c l r1 p →
    owner_inv (set_pc t (LeaderDefer key c0)
      (set_heap (<[c0:=r0']> (heap s)) (set_gh (log_fn t o (gh s)) s))) c l r1 p).
  { intros c l r1 p Hne. apply owner_inv_mono; try done.
    unfold logged. simpl. intros. apply elem_of_app. by left. }
  destruct Hinv as [HT HO HJ HL HLn HM HP HPn HD].
  split; simpl.
  - intros t' p Ht'. apply list_lookup_insert_Some in Ht' as [(<- & <- & _)|[? Ht']].
    + done.
    + eapply thread_inv_mono; [..|by apply HT]; simpl; auto.
      * unfold logged. simpl. intros. apply elem_of_app. by left.
      * eapply heap_update_keeps; eauto.
  - intros c l Hc. destruct (HO c l Hc) as (r1 & p & Hr1 & Hl & Hi).
    destruct (decide (c = c0)) as [->|Hne].
    + assert (l = t) as -> by congruence. rewrite Hr0 in Hr1. simplify_eq.
      exists r0', (LeaderDefer key c0).
      rewrite !list_lookup_insert_eq by done. repeat split; auto.
      * by destruct o.
      * exists o. split; [|done]. unfold logged. simpl.
        apply elem_of_app. right. by apply list_elem_of_singleton.
      * unfold map_ok in *. by destruct o.
    + assert (l ≠ t).
      { intros ->. rewrite Ht in Hl. injection Hl as <-. simpl in Hi.
        by destruct Hi as [? _]. }
      exists r1, p. rewrite !list_lookup_insert_ne by done. auto.
  - intros t' l c Hj. destruct (HJ t' l c Hj) as (r1 & p & Hr1 & Hl & Hf & Ho & Hdn & Hdp).
    assert (t' ≠ t).
    { intros ->. rewrite Ht in Hl. by simplify_eq. }
    rewrite (list_lookup_insert_ne (threads s)) by done.
    destruct (decide (c = c0)) as [->|Hne].
    + rewrite Hr0 in Hr1. simplify_eq. exists r0', p.
      rewrite list_lookup_insert_eq by done. repeat split; auto; by destruct o.
    + exists r1, p. rewrite list_lookup_insert_ne by done. repeat split; auto.
  - unfold logged. simpl. intros t' o' Hl.
    apply elem_of_app in Hl as [Hl|Hl].
    + destruct (HL _ _ Hl) as (p & Hp & Ha). exists p. split; [|done].
      rewrite list_lookup_insert_ne; [done|]. intros <-. by apply Hnl in Hl.
    + apply list_elem_of_singleton in Hl. injection Hl as -> ->.
      exists (LeaderDefer key c0). by rewrite list_lookup_insert_eq.
  - rewrite fmap_app. apply NoDup_app. split; [done|]. split.
    + intros x Hx Hx'. simpl in Hx'. apply list_elem_of_singleton in Hx' as ->.
      apply list_elem_of_fmap in Hx as ([t' o'] & Heq & Hx). simpl in Heq. subst.
      by apply Hnl in Hx.
    + simpl. apply NoDup_singleton.
  - intros key' c Hm. destruct (HM key' c Hm) as (l & r1 & Ho & Hr1 & Hf & Hfl).
    exists l. destruct (decide (c = c0)) as [->|Hne].
    + rewrite Hr0 in Hr1. simplify_eq.
      exists r0'. rewrite list_lookup_insert_eq by done.
      repeat split; auto; [by destruct o|].
      right. simpl. rewrite list_lookup_insert_eq by done.
      destruct Hfl as [[ctx' Hfl]|Hfl]; congruence.
    + exists r1. rewrite list_lookup_insert_ne by done. repeat split; auto.
      assert (l ≠ t).
      { intros ->. destruct Hfl as [[ctx' Hfl]|Hfl]; congruence. }
      unfold in_flight in *. simpl. by rewrite list_lookup_insert_ne.
  - intros c Hc. destruct (HP c Hc) as (r1 & Hr1 & Hcl).
    exists r1. split; [|done]. rewrite list_lookup_insert_ne; [done|].
    intros <-. done.
  - done.
  - intros c r1 Hr1. destruct (decide (c = c0)) as [->|Hne].
    + rewrite list_lookup_insert_eq in Hr1 by done. injection Hr1 as <-.
      replace (dups r0') with (dups r) by (by destruct o). by apply (HD c0).
    + rewrite list_lookup_insert_ne in Hr1 by done. by apply (HD c).
Qed.


Lemma map_index_delete (m : option (gmap K nat)) key key' :
  map_index (map_delete m key) key'
  = if decide (key = key') then None else map_index m key'.
Proof.
  destruct m as [m|]; simpl; [apply lookup_delete|by case_decide].
Qed.

Lemma map_index_insert (m : gmap K nat) key c key' :
  map_index (Some (<[key := c]> m)) key'
  = if decide (key = key') then Some c else map_index (Some m) key'.
Proof. simpl. apply lookup_insert. Qed.

(** The in-flight leader of a record is its owner, at the key of its entry. *)
Lemma in_flight_owner n (s : state) l key c t p :
  inv n s → owner (gh s) !! c = Some l → in_flight s l key c →
  threads s !! t = Some p → owner (gh s) !! c = Some t →
  (∃ ctx, p = LeaderCall ctx key c) ∨ p = LeaderDefer key c.
Proof.
  intros Hinv Hl Hf Ht Ht'. assert (l = t) as -> by congruence.
  destruct Hf as [[ctx Hf]|Hf]; rewrite Ht in Hf; injection Hf as ->; eauto.
Qed.

(** The deferred function of the leader of [c0] removes from the map the
    entries that refer to [c0], and no other. *)
Lemma deferred_mapped n (s : state) t key c0 r0 :
  inv n s → threads s !! t = Some (LeaderDefer key c0) →
  heap s !! c0 = Some r0 →
  ∀ key' c,
    map_index (if forgotten r0 then calls (grp s)
               else map_delete (calls (grp s)) key) key' = Some c
    ↔ mapped s key' c ∧ c ≠ c0.
Proof.
  intros Hinv Ht Hr0 key' c.
  pose proof (inv_thread _ _ Hinv _ _ Ht) as Hown0. simpl in Hown0.
  destruct (inv_owner _ _ Hinv _ _ Hown0) as (r & p & Hr & Hp & Hi).
  rewrite Hr0 in Hr. rewrite Ht in Hp. injection Hr as <-. injection Hp as <-.
  simpl in Hi. destruct Hi as (_ & _ & _ & _ & Hmap). unfold map_ok in Hmap.
  destruct (forgotten r0) eqn:Hfg.
  - split; [|by intros []]. intros Hm. split; [done|]. intros ->.
    destruct (inv_map _ _ Hinv _ _ Hm) as (l & r & _ & Hr & Hf & _).
    congruence.
  - rewrite map_index_delete. case_decide as Hk.
    + subst key'. split; [done|]. intros [Hm Hne]. unfold mapped in *. congruence.
    + split; [|by intros []]. intros Hm. split; [done|]. intros ->.
      destruct (inv_map _ _ Hinv _ _ Hm) as (l & r & Ho & _ & _ & Hf).
      destruct (in_flight_owner _ _ _ _ _ _ _ Hinv Ho Hf Ht Hown0)
        as [[ctx ?]|?]; congruence.
Qed.

Lemma inv_doCall_deferred n (s s' : state) t :
  inv n s → doCall_deferred t s = Some s' → inv n s'.
Proof.
  intros Hinv Hs. unfold doCall_deferred in Hs.
  destruct (threads s !! t) as [[| | |key c0| | | |]|] eqn:Ht; try done.
  destruct (heap s !! c0) as [r0|] eqn:Hr0; [|done].
  pose proof (inv_thread _ _ Hinv _ _ Ht) as Hown0. simpl in Hown0.
  destruct (inv_owner _ _ Hinv _ _ Hown0) as (r & p & Hr & Hp & Hi).
  rewrite Hr0 in Hr. rewrite Ht in Hp. injection Hr as <-. injection Hp as <-.
  simpl in Hi. destruct Hi as (_ & Hnp & Hd & (o & Hlog & Hst) & Hmap).
  assert (Hlt : (t < length (threads s))%nat) by eauto using lookup_lt_Some.
  assert (Hc0 : (c0 < length (heap s))%nat) by eauto using lookup_lt_Some.
  assert (∃ d, match done r0 with ChanNil => Some ChanNil | d => chan_close d end
               = Some d ∧ d ≠ ChanOpen ∧ (done r0 ≠ ChanNil → d ≠ ChanNil))
    as (d & Hcl & Hdo & Hdn).
  { destruct (done r0); [exists ChanNil|exists ChanClosed|]; done. }
  rewrite Hcl in Hs. injection Hs as <-.
  set (r0' := Call (val r0) (err r0) (panicErr r0) d (dups r0) (forgotten r0)).
  set (m' := if forgotten r0 then calls (grp s) else map_delete (calls (grp s)) key).
  assert (Hkeep : keeps r0 r0') by (intros ?; done).
  assert (Hmapped : ∀ key' c, map_index m' key' = Some c
                              ↔ mapped s key' c ∧ c ≠ c0)
    by (by eapply deferred_mapped).
  destruct Hinv as [HT HO HJ HL HLn HM HP HPn HD].
  split; simpl; auto.
  - intros t' p Ht'. apply list_lookup_insert_Some in Ht' as [(<- & <- & _)|[? Ht']].
    + done.
    + eapply thread_inv_mono; [..|by apply HT]; simpl; auto.
      eapply heap_update_keeps; eauto.
  - intros c l Hc. destruct (HO c l Hc) as (r1 & p & Hr1 & Hl & Hi).
    destruct (decide (c = c0)) as [->|Hne].
    + assert (l = t) as -> by congruence.
      exists r0', (LeaderAfter c0).
      rewrite !list_lookup_insert_eq by done. repeat split; auto. eauto.
    + assert (l ≠ t).
      { intros ->. rewrite Ht in Hl. injection Hl as <-. simpl in Hi.
        by destruct Hi as [? _]. }
      exists r1, p. rewrite !list_lookup_insert_ne by done.
      repeat split; auto. eapply owner_inv_mono; [| | |exact Hi]; try done.
      intros key'. unfold mapped at 1. simpl. rewrite Hmapped. tauto.
  - intros t' l c Hj.
    destruct (HJ t' l c Hj) as (r1 & p & Hr1 & Hl & Hf & Ho & Hdn1 & Hdp).
    assert (t' ≠ t).
    { intros ->. rewrite Ht in Hl. injection Hl as <-. done. }
    rewrite (list_lookup_insert_ne (threads s)) by done.
    destruct (decide (c = c0)) as [->|Hne].
    + rewrite Hr0 in Hr1. injection Hr1 as <-. exists r0', p.
      rewrite list_lookup_insert_eq by done. repeat split; auto.
    + exists r1, p. rewrite list_lookup_insert_ne by done. repeat split; auto.
  - intros t' o' Hl. destruct (HL _ _ Hl) as (p & Hp & Ha).
    destruct (decide (t' = t)) as [->|Hne].
    + exists (LeaderAfter c0). by rewrite list_lookup_insert_eq.
    + exists p. by rewrite list_lookup_insert_ne.
  - intros key' c Hm. unfold mapped in Hm. simpl in Hm.
    apply Hmapped in Hm as [Hm Hne].
    destruct (HM key' c Hm) as (l & r1 & Ho & Hr1 & Hf & Hfl).
    exists l, r1. rewrite list_lookup_insert_ne by done. repeat split; auto.
    assert (l ≠ t).
    { intros ->. destruct Hfl as [[ctx' Hfl]|Hfl]; congruence. }
    unfold in_flight in *. simpl. by rewrite list_lookup_insert_ne.
  - intros c Hc. destruct (HP c Hc) as (r1 & Hr1 & Hcl1).
    exists r1. split; [|done]. rewrite list_lookup_insert_ne; [done|].
    intros <-. done.
  - intros c r1 Hr1. destruct (decide (c = c0)) as [->|Hne].
    + rewrite list_lookup_insert_eq in Hr1 by done. injection Hr1 as <-.
      exact (HD c0 r0 Hr0).
    + rewrite list_lookup_insert_ne in Hr1 by done. by apply (HD c).
Qed.


Lemma recyclable_true (r : call) :
  recyclable r = true ↔ panicErr r = None ∧ dups r = 0 ∧ done r = ChanNil.
Proof.
  unfold recyclable. rewrite !andb_true_iff, negb_true_iff, Z.eqb_eq,
    bool_decide_eq_false, bool_decide_eq_true.
  destruct (panicErr r); intuition congruence.
Qed.

Lemma stored_agrees (s : state) t c o (r : call) :
  stored o r → owner (gh s) !! c = Some t →
  agrees s t c o (val r) (err r) (bool_decide (panicErr r ≠ None)).
Proof.
  destruct o as [v e|x]; simpl.
  - intros (-> & -> & ->) _. repeat split; auto.
  - intros [stk ->] ?. split; [|done]. by apply bool_decide_eq_true.
Qed.

Lemma inv_Do_recycle n (s s' : state) t :
  inv n s → Do_recycle t s = Some s' → inv n s'.
Proof.
  intros Hinv Hs. unfold Do_recycle in Hs.
  destruct (threads s !! t) as [[| | | |c0| | |]|] eqn:Ht; try done.
  destruct (heap s !! c0) as [r0|] eqn:Hr0; [|done]. injection Hs as <-.
  pose proof (inv_thread _ _ Hinv _ _ Ht) as Hown0. simpl in Hown0.
  destruct (inv_owner _ _ Hinv _ _ Hown0) as (r & p & Hr & Hp & Hi).
  rewrite Hr0 in Hr. rewrite Ht in Hp. injection Hr as <-. injection Hp as <-.
  simpl in Hi. destruct Hi as (_ & Hnp & Hdo & (o & Hlog & Hst)).
  assert (Hlt : (t < length (threads s))%nat) by eauto using lookup_lt_Some.
  assert (Hc0 : (c0 < length (heap s))%nat) by eauto using lookup_lt_Some.
  assert (Hfl : ∀ key c', ¬ in_flight s t key c').
  { intros key c' [[ctx Hf]|Hf]; congruence. }
  destruct (recyclable r0) eqn:Hrec.
  2:{ eapply inv_set_pc; eauto; try done.
      - simpl. split; [eauto|]. exists o. split; [done|]. by apply stored_agrees.
      - intros c r Hc Hr (<- & _). rewrite Hr0 in Hr. injection Hr as <-.
        simpl. split; [done|]. split; [done|]. exists o. split; [done|].
        right. done. }
  apply recyclable_true in Hrec as (Hpe & Hdu & Hdn).
  assert (Hkeep : keeps r0 (scrub r0)) by (intros ?; congruence).
  assert (Hret : ∃ v e, o = FnReturn v e).
  { destruct o as [v e|x]; [eauto|]. destruct Hst as [stk Hst]. congruence. }
  destruct Hinv as [HT HO HJ HL HLn HM HP HPn HD].
  split; simpl; auto.
  - intros t' p Ht'. apply list_lookup_insert_Some in Ht' as [(<- & <- & _)|[? Ht']].
    + simpl. split.
      * rewrite list_lookup_insert_eq by done. eauto.
      * exists o. split; [done|]. by apply stored_agrees.
    + eapply thread_inv_mono; [..|by apply HT]; simpl; auto.
      eapply heap_update_keeps; eauto.
  - intros c l Hc. destruct (HO c l Hc) as (r1 & p & Hr1 & Hl & Hi).
    destruct (decide (c = c0)) as [->|Hne].
    + assert (l = t) as -> by congruence.
      exists (scrub r0), (LeaderExit c0 (val r0) (err r0)
                            (bool_decide (panicErr r0 ≠ None))).
      rewrite !list_lookup_insert_eq by done. repeat split; auto.
      exists o. split; [done|]. left. split; [|done]. by repeat split.
    + assert (l ≠ t).
      { intros ->. rewrite Ht in Hl. injection Hl as <-. simpl in Hi.
        by destruct Hi as [? _]. }
      exists r1, p. rewrite !list_lookup_insert_ne by done.
      repeat split; auto. eapply owner_inv_mono; [| | |exact Hi]; try done.
      unfold pooled. simpl. intros Hin. apply elem_of_cons in Hin as [?|?]; done.
  - intros t' l c Hj.
    destruct (HJ t' l c Hj) as (r1 & p & Hr1 & Hl & Hf & Ho & Hdn1 & Hdp).
    assert (t' ≠ t).
    { intros ->. rewrite Ht in Hl. injection Hl as <-. done. }
    assert (c ≠ c0) by (intros ->; congruence).
    exists r1, p. rewrite !list_lookup_insert_ne by done. repeat split; auto.
  - intros t' o' Hl. destruct (HL _ _ Hl) as (p & Hp & Ha).
    destruct (decide (t' = t)) as [->|Hne].
    + eexists. by rewrite list_lookup_insert_eq.
    + exists p. by rewrite list_lookup_insert_ne.
  - intros key' c Hm.
    destruct (HM key' c Hm) as (l & r1 & Ho & Hr1 & Hf & Hfl').
    assert (l ≠ t).
    { intros ->. by apply Hfl in Hfl'. }
    assert (c ≠ c0) by (intros ->; congruence).
    exists l, r1. rewrite list_lookup_insert_ne by done. repeat split; auto.
    unfold in_flight in *. simpl. by rewrite list_lookup_insert_ne.
  - intros c Hc. unfold pooled in Hc. simpl in Hc.
    apply elem_of_cons in Hc as [->|Hc].
    + exists (scrub r0). rewrite list_lookup_insert_eq by done.
      split; [done|]. by repeat split.
    + destruct (HP c Hc) as (r1 & Hr1 & Hcl1).
      exists r1. split; [|done]. rewrite list_lookup_insert_ne; [done|].
      intros <-. done.
  - apply NoDup_cons. split; done.
  - intros c r1 Hr1. destruct (decide (c = c0)) as [->|Hne].
    + rewrite list_lookup_insert_eq in Hr1 by done. injection Hr1 as <-.
      exact (HD c0 r0 Hr0).
    + rewrite list_lookup_insert_ne in Hr1 by done. by apply (HD c).
Qed.


Lemma map_delete_absent (m : option (gmap K nat)) key :
  map_index m key = None → map_delete m key = m.
Proof.
  destruct m as [m|]; simpl; [|done]. intros Hm. f_equal. by apply delete_id.
Qed.

Lemma state_eta (s : state) :
  set_heap (heap s) (set_calls (calls (grp s)) s) = s.
Proof. by destruct s as [[] ? ? ? ?]. Qed.

Lemma inv_Forget n (s s' : state) t :
  inv n s → Forget t s = Some s' → inv n s'.
Proof.
  intros Hinv Hs. unfold Forget in Hs.
  destruct (threads s !! t) as [[| | | | | |key|]|] eqn:Ht; try done.
  injection Hs as <-.
  assert (Hlt : (t < length (threads s))%nat) by eauto using lookup_lt_Some.
  assert (Hfl : ∀ key c', ¬ in_flight s t key c').
  { intros key' c' [[ctx Hf]|Hf]; congruence. }
  destruct (map_index (calls (grp s)) key) as [c0|] eqn:Hk.
  2:{ rewrite map_delete_absent, state_eta by done.
      eapply inv_set_pc; eauto; done. }
  destruct (inv_map _ _ Hinv _ _ Hk) as (l0 & r0 & Hown0 & Hr0 & Hfg & Hfl0).
  rewrite Hr0.
  destruct (inv_owner _ _ Hinv _ _ Hown0) as (r & p0 & Hr & Hp0 & Hi0).
  rewrite Hr0 in Hr. injection Hr as <-.
  assert (Hc0 : (c0 < length (heap s))%nat) by eauto using lookup_lt_Some.
  set (r0' := Call (val r0) (err r0) (panicErr r0) (done r0) (dups r0) true).
  assert (Hkeep : keeps r0 r0') by (intros ?; done).
  assert (Hmapped : ∀ key' c, map_index (map_delete (calls (grp s)) key) key' = Some c
                              ↔ mapped s key' c ∧ c ≠ c0).
  { intros key' c. rewrite map_index_delete. case_decide as Hke.
    - subst key'. split; [done|]. intros [Hm Hne]. unfold mapped in *. congruence.
    - split; [|by intros []]. intros Hm. split; [done|]. intros ->.
      destruct (inv_map _ _ Hinv _ _ Hm) as (l & r & Ho & _ & _ & Hf).
      assert (l = l0) as -> by congruence.
      destruct Hfl0 as [[ctx Hf0]|Hf0], Hf as [[ctx' Hf]|Hf]; congruence. }
  assert (Hl0 : l0 ≠ t) by (intros ->; by apply Hfl in Hfl0).
  destruct Hinv as [HT HO HJ HL HLn HM HP HPn HD].
  split; simpl; auto.
  - intros t' p Ht'. apply list_lookup_insert_Some in Ht' as [(<- & <- & _)|[? Ht']].
    + done.
    + eapply thread_inv_mono; [..|by apply HT]; simpl; auto.
      eapply heap_update_keeps; eauto.
  - intros c l Hc. destruct (HO c l Hc) as (r1 & p & Hr1 & Hl & Hi).
    assert (l ≠ t).
    { intros ->. rewrite Ht in Hl. injection Hl as <-. done. }
    rewrite (list_lookup_insert_ne (threads s)) by done.
    destruct (decide (c = c0)) as [->|Hne].
    + assert (l = l0) as -> by congruence.
      rewrite Hr0 in Hr1. injection Hr1 as <-.
      rewrite Hp0 in Hl. injection Hl as <-.
      exists r0', p0. rewrite list_lookup_insert_eq by done.
      repeat split; auto.
      assert (Hnm : ¬ mapped (set_pc t (Exited ExitForget)
                (set_heap (<[c0:=r0']> (heap s))
                   (set_calls (map_delete (calls (grp s)) key) s))) key c0).
      { unfold mapped. simpl. rewrite Hmapped. tauto. }
      destruct Hfl0 as [[ctx Hf0]|Hf0]; rewrite Hp0 in Hf0; injection Hf0 as ->;
        simpl in *; intuition congruence.
    + exists r1, p. rewrite list_lookup_insert_ne by done.
      repeat split; auto. eapply owner_inv_mono; [| | |exact Hi]; try done.
      intros key'. unfold mapped at 1. simpl. rewrite Hmapped. tauto.
  - intros t' l c Hj.
    destruct (HJ t' l c Hj) as (r1 & p & Hr1 & Hl & Hf & Ho & Hdn1 & Hdp).
    assert (t' ≠ t).
    { intros ->. rewrite Ht in Hl. injection Hl as <-. done. }
    rewrite (list_lookup_insert_ne (threads s)) by done.
    destruct (decide (c = c0)) as [->|Hne].
    + rewrite Hr0 in Hr1. injection Hr1 as <-. exists r0', p.
      rewrite list_lookup_insert_eq by done. repeat split; auto.
    + exists r1, p. rewrite list_lookup_insert_ne by done. repeat split; auto.
  - intros t' o' Hl. destruct (HL _ _ Hl) as (p & Hp & Ha).
    destruct (decide (t' = t)) as [->|Hne].
    + rewrite Ht in Hp. injection Hp as <-. done.
    + exists p. by rewrite list_lookup_insert_ne.
  - intros key' c Hm. unfold mapped in Hm. simpl in Hm.
    apply Hmapped in Hm as [Hm Hne].
    destruct (HM key' c Hm) as (l & r1 & Ho & Hr1 & Hf & Hfl').
    exists l, r1. rewrite list_lookup_insert_ne by done. repeat split; auto.
    assert (l ≠ t).
    { intros ->. by apply Hfl in Hfl'. }
    unfold in_flight in *. simpl. by rewrite list_lookup_insert_ne.
  - intros c Hc. destruct (HP c Hc) as (r1 & Hr1 & Hcl1).
    destruct (decide (c = c0)) as [->|Hne].
    + rewrite Hr0 in Hr1. injection Hr1 as <-. exists r0'.
      rewrite list_lookup_insert_eq by done. done.
    + exists r1. by rewrite list_lookup_insert_ne.
  - intros c r1 Hr1. destruct (decide (c = c0)) as [->|Hne].
    + rewrite list_lookup_insert_eq in Hr1 by done. injection Hr1 as <-.
      exact (HD c0 r0 Hr0).
    + rewrite list_lookup_insert_ne in Hr1 by done. by apply (HD c).
Qed.


Lemma int_incr_small z : 0 ≤ z → z + 1 < 2 ^ 63 → int_incr z = z + 1.
Proof.
  intros ??. unfold int_incr, int_wrap. rewrite Z.mod_small; lia.
Qed.

Lemma map_index_made (m : option (gmap K nat)) key :
  map_index (made m) key = map_index m key.
Proof. by destruct m. Qed.

Lemma inv_Do_lock_follower n (s : state) t ctx key c0 r0 :
  inv n s → threads s !! t = Some (DoStart ctx key) →
  mapped s key c0 → heap s !! c0 = Some r0 →
  inv (S n)
    (set_pc t (FollowerSelect ctx c0)
       (set_heap (<[c0 := join r0]> (heap s))
          (set_calls (made (calls (grp s)))
             (set_gh (set_joined t c0 (gh s)) s)))).
Proof.
  intros Hinv Ht Hk Hr0.
  destruct (inv_map _ _ Hinv _ _ Hk) as (l0 & r & Hown0 & Hr & Hfg & Hfl0).
  rewrite Hr0 in Hr. injection Hr as <-.
  destruct (inv_owner _ _ Hinv _ _ Hown0) as (r & p0 & Hr & Hp0 & Hi0).
  rewrite Hr0 in Hr. injection Hr as <-.
  assert (Hlt : (t < length (threads s))%nat) by eauto using lookup_lt_Some.
  assert (Hc0 : (c0 < length (heap s))%nat) by eauto using lookup_lt_Some.
  assert (Hfl : ∀ key c', ¬ in_flight s t key c').
  { intros key' c' [[ctx' Hf]|Hf]; congruence. }
  assert (Hl0 : l0 ≠ t) by (intros ->; by apply Hfl in Hfl0).
  assert (Hkeep : keeps r0 (join r0)).
  { intros Hd. simpl. by rewrite Hd. }
  assert (Hdn : done (join r0) ≠ ChanNil) by (simpl; by destruct (done r0)).
  assert (Hdc : done r0 ≠ ChanClosed → done (join r0) ≠ ChanClosed)
    by (simpl; by destruct (done r0)).
  unfold set_joined. rewrite Hown0.
  assert (Hjt : joined (gh s) !! t = None).
  { destruct (joined (gh s) !! t) as [[l c]|] eqn:Hj; [|done].
    destruct (inv_joined _ _ Hinv _ _ _ Hj) as (r1 & p & _ & Hp & Hf & _).
    rewrite Ht in Hp. injection Hp as <-. done. }
  assert (Hpool : ¬ pooled s c0).
  { destruct Hfl0 as [[ctx' Hf0]|Hf0]; rewrite Hp0 in Hf0; injection Hf0 as ->;
      simpl in Hi0; tauto. }
  destruct Hinv as [HT HO HJ HL HLn HM HP HPn HD].
  split; simpl; auto.
  - intros t' p Ht'. apply list_lookup_insert_Some in Ht' as [(<- & <- & _)|[? Ht']].
    + simpl. exists l0. by rewrite lookup_insert_eq.
    + eapply thread_inv_mono; [..|by apply HT]; simpl; auto.
      * by rewrite lookup_insert_ne.
      * eapply heap_update_keeps; eauto.
  - intros c l Hc. destruct (HO c l Hc) as (r1 & p & Hr1 & Hl & Hi).
    assert (l ≠ t).
    { intros ->. rewrite Ht in Hl. injection Hl as <-. done. }
    rewrite (list_lookup_insert_ne (threads s)) by done.
    assert (Hmono : ∀ r2, owner_inv s c l r2 p →
      owner_inv (set_pc t (FollowerSelect ctx c0)
       (set_heap (<[c0 := join r0]> (heap s))
          (set_calls (made (calls (grp s)))
             (set_gh (MkGhost (owner (gh s)) (<[t:=(l0, c0)]> (joined (gh s)))
                        (fnlog (gh s))) s)))) c l r2 p).
    { intros r2. apply owner_inv_mono; try done.
      intros key'. unfold mapped. simpl. by rewrite map_index_made. }
    destruct (decide (c = c0)) as [->|Hne].
    + assert (l = l0) as -> by congruence.
      rewrite Hr0 in Hr1. injection Hr1 as <-.
      rewrite Hp0 in Hl. injection Hl as <-.
      exists (join r0), p0. rewrite list_lookup_insert_eq by done.
      repeat split; auto.
      apply Hmono.
      destruct Hfl0 as [[ctx' Hf0]|Hf0]; rewrite Hp0 in Hf0; injection Hf0 as ->;
        simpl in *; unfold map_ok in *; simpl; intuition congruence.
    + exists r1, p. rewrite list_lookup_insert_ne by done. repeat split; auto.
  - intros t' l c Hj. destruct (decide (t' = t)) as [->|Hne'].
    + rewrite lookup_insert_eq in Hj. injection Hj as <- <-.
      exists (join r0), (FollowerSelect ctx c0).
      rewrite !list_lookup_insert_eq by done. repeat split; auto.
      intros Hn. simpl.
      assert (0 ≤ dups r0 ≤ Z.of_nat n) by (apply (HD c0); [done|lia]).
      rewrite int_incr_small; lia.
    + rewrite lookup_insert_ne in Hj by done.
      destruct (HJ t' l c Hj) as (r1 & p & Hr1 & Hl & Hf & Ho & Hdn1 & Hdp).
      rewrite (list_lookup_insert_ne (threads s)) by done.
      destruct (decide (c = c0)) as [->|Hne].
      * rewrite Hr0 in Hr1. injection Hr1 as <-. exists (join r0), p.
        rewrite list_lookup_insert_eq by done. repeat split; auto.
        intros Hn. simpl.
        assert (0 ≤ dups r0 ≤ Z.of_nat n) by (apply (HD c0); [done|lia]).
        rewrite int_incr_small; lia.
      * exists r1, p. rewrite list_lookup_insert_ne by done. repeat split; auto.
        intros. apply Hdp. lia.
  - intros t' o' Hl. destruct (HL _ _ Hl) as (p & Hp & Ha).
    destruct (decide (t' = t)) as [->|Hne].
    + rewrite Ht in Hp. injection Hp as <-. done.
    + exists p. by rewrite list_lookup_insert_ne.
  - intros key' c Hm. unfold mapped in Hm. simpl in Hm.
    rewrite map_index_made in Hm.
    destruct (HM key' c Hm) as (l & r1 & Ho & Hr1 & Hf & Hfl').
    assert (l ≠ t).
    { intros ->. by apply Hfl in Hfl'. }
    exists l. destruct (decide (c = c0)) as [->|Hne].
    + rewrite Hr0 in Hr1. injection Hr1 as <-. exists (join r0).
      rewrite list_lookup_insert_eq by done. repeat split; auto.
      unfold in_flight in *. simpl. by rewrite list_lookup_insert_ne.
    + exists r1. rewrite list_lookup_insert_ne by done. repeat split; auto.
      unfold in_flight in *. simpl. by rewrite list_lookup_insert_ne.
  - intros c Hc. destruct (HP c Hc) as (r1 & Hr1 & Hcl1).
    exists r1. split; [|done]. rewrite list_lookup_insert_ne; [done|].
    intros <-. done.
  - intros c r1 Hr1 Hn. destruct (decide (c = c0)) as [->|Hne].
    + rewrite list_lookup_insert_eq in Hr1 by done. injection Hr1 as <-.
      assert (0 ≤ dups r0 ≤ Z.of_nat n) by (apply (HD c0); [done|lia]).
      simpl. rewrite int_incr_small; lia.
    + rewrite list_lookup_insert_ne in Hr1 by done.
      assert (0 ≤ dups r1 ≤ Z.of_nat n) by (apply (HD c); [done|lia]). lia.
Qed.


(** The leader's branch, for a record [c0] that is either fresh ([h2] is
    the heap extended by it) or was taken from the pool ([p'] is the pool
    without it). *)
Lemma inv_Do_lock_leader n (s : state) t ctx key c0 r0 h2 p' m0 :
  inv n s → threads s !! t = Some (DoStart ctx key) →
  map_index (calls (grp s)) key = None →
  made (calls (grp s)) = Some m0 →
  h2 !! c0 = Some r0 → clean r0 →
  (∀ c r, heap s !! c = Some r → h2 !! c = Some r) →
  (∀ c r, h2 !! c = Some r → c ≠ c0 → heap s !! c = Some r) →
  (∀ c, c ∈ items p' → pooled s c) → NoDup (items p') → c0 ∉ items p' →
  (heap s !! c0 = None ∨ pooled s c0) →
  inv n
    (set_pc t (LeaderCall ctx key c0)
       (set_calls (Some (<[key := c0]> m0))
          (set_gh (set_owner c0 t (gh s))
             (set_heap (<[c0 := reset r0]> h2) (set_pool p' s))))).
Proof.
  intros Hinv Ht Hk Hm0 Hr0 Hcl Hext Hext' Hsub Hnd Hni Hun.
  assert (Hlt : (t < length (threads s))%nat) by eauto using lookup_lt_Some.
  assert (Hc0 : (c0 < length h2)%nat) by eauto using lookup_lt_Some.
  assert (Hfl : ∀ key c', ¬ in_flight s t key c').
  { intros key' c' [[ctx' Hf]|Hf]; congruence. }
  assert (Hold : ∀ r, heap s !! c0 = Some r → pooled s c0 ∧ r = r0).
  { intros r Hr. destruct Hun as [?|?]; [congruence|]. split; [done|].
    apply Hext in Hr. congruence. }
  assert (Hheap : ∀ c r, heap s !! c = Some r → c ≠ c0 →
                         <[c0 := reset r0]> h2 !! c = Some r).
  { intros c r Hr Hne. rewrite list_lookup_insert_ne by done. by apply Hext. }
  assert (Hmapped : ∀ key' c,
    map_index (Some (<[key := c0]> m0)) key' = Some c
    ↔ (key' = key ∧ c = c0) ∨ (mapped s key' c ∧ c ≠ c0)).
  { intros key' c. rewrite map_index_insert. rewrite <- Hm0, map_index_made.
    case_decide as Hke.
    - subst key'. unfold mapped. rewrite Hk. intuition congruence.
    - split; [|intuition congruence]. intros Hm. right. split; [done|]. intros ->.
      destruct (inv_map _ _ Hinv _ _ Hm) as (l & r & Ho & Hr & _ & Hf).
      destruct (Hold _ Hr) as [Hp _].
      destruct (inv_owner _ _ Hinv _ _ Ho) as (r' & p & _ & Hp' & Hi).
      destruct Hf as [[ctx' Hf]|Hf]; rewrite Hp' in Hf; injection Hf as ->;
        simpl in Hi; tauto. }
  assert (Hneed : ∀ t' p c, threads s !! t' = Some p →
    owner (gh s) !! c = Some t' → needs_owner s t' p c → c ≠ c0).
  { intros t' p c Hp Ho Hneed ->.
    destruct (inv_owner _ _ Hinv _ _ Ho) as (r & p1 & Hr & Hp1 & Hi).
    rewrite Hp in Hp1. injection Hp1 as <-.
    destruct (Hold _ Hr) as [Hpl ->].
    destruct p as [| | | | | | |[]]; simpl in Hi, Hneed; try tauto.
    - destruct Hi as (_ & _ & o & Hlog & Hcase). destruct Hneed as (_ & x & Hx).
      assert (o = FnPanic x) as -> by eauto using logged_inj, inv_log_nodup.
      destruct Hcase as [(_ & ? & ? & ?)|(? & _)]; done.
    - destruct Hi as [_ Hpe']. destruct Hcl as (_ & _ & ? & _). congruence. }
  destruct Hcl as (Hv & He & Hpe & Hdn & Hdu).
  destruct Hinv as [HT HO HJ HL HLn HM HP HPn HD].
  split; simpl; auto.
  - intros t' p Ht'. apply list_lookup_insert_Some in Ht' as [(<- & <- & _)|[? Ht']].
    + simpl. by rewrite lookup_insert_eq.
    + eapply thread_inv_mono; [..|by apply HT]; simpl; auto.
      * intros c Ho Hn. rewrite lookup_insert_ne; [done|].
        intros <-. by eapply Hneed.
      * intros c r Hr. destruct (decide (c = c0)) as [->|Hne].
        -- destruct (Hold _ Hr) as [_ ->]. exists (reset r0).
           rewrite list_lookup_insert_eq by done. split; [done|].
           intros ?. congruence.
        -- exists r. split; [by apply Hheap|by intros ?].
  - intros c l Hc. destruct (decide (c = c0)) as [->|Hne].
    + rewrite lookup_insert_eq in Hc. injection Hc as <-.
      exists (reset r0), (LeaderCall ctx key c0).
      rewrite !list_lookup_insert_eq by done. repeat split; auto.
      * simpl. congruence.
      * unfold map_ok, mapped. simpl. rewrite lookup_insert_eq. done.
    + rewrite lookup_insert_ne in Hc by done.
      destruct (HO c l Hc) as (r1 & p & Hr1 & Hl & Hi).
      assert (l ≠ t).
      { intros ->. rewrite Ht in Hl. injection Hl as <-. done. }
      exists r1, p. rewrite (list_lookup_insert_ne (threads s)) by done.
      repeat split; auto. eapply owner_inv_mono; [| | |exact Hi]; try done.
      * unfold pooled at 1. simpl. apply Hsub.
      * intros key'. unfold mapped at 1. simpl.
        pose proof (Hmapped key' c) as Hmk. simpl in Hmk. rewrite Hmk.
        intuition congruence.
  - intros t' l c Hj.
    destruct (HJ t' l c Hj) as (r1 & p & Hr1 & Hl & Hf & Ho & Hdn1 & Hdp).
    assert (t' ≠ t).
    { intros ->. rewrite Ht in Hl. injection Hl as <-. done. }
    assert (c ≠ c0).
    { intros ->. destruct (Hold _ Hr1) as [_ ->]. done. }
    exists r1, p. rewrite (list_lookup_insert_ne (threads s)) by done.
    rewrite lookup_insert_ne by done. repeat split; auto.
  - intros t' o' Hl. destruct (HL _ _ Hl) as (p & Hp & Ha).
    destruct (decide (t' = t)) as [->|Hne].
    + rewrite Ht in Hp. injection Hp as <-. done.
    + exists p. by rewrite list_lookup_insert_ne.
  - intros key' c Hm. unfold mapped in Hm. simpl in Hm.
    pose proof (Hmapped key' c) as Hmk. simpl in Hmk.
    apply Hmk in Hm as [[-> ->]|[Hm Hne]].
    + exists t, (reset r0). rewrite lookup_insert_eq.
      rewrite list_lookup_insert_eq by done. repeat split; auto.
      left. exists ctx. simpl. by rewrite list_lookup_insert_eq.
    + destruct (HM key' c Hm) as (l & r1 & Ho & Hr1 & Hf & Hfl').
      assert (l ≠ t).
      { intros ->. by apply Hfl in Hfl'. }
      exists l, r1. rewrite lookup_insert_ne by done. repeat split; auto.
      unfold in_flight in *. simpl. by rewrite list_lookup_insert_ne.
  - intros c Hc. unfold pooled in Hc. simpl in Hc.
    assert (c ≠ c0) by (intros ->; done).
    destruct (HP c (Hsub c Hc)) as (r1 & Hr1 & Hcl1).
    exists r1. split; [by apply Hheap|done].
  - intros c r1 Hr1 Hn. destruct (decide (c = c0)) as [->|Hne].
    + rewrite list_lookup_insert_eq in Hr1 by done. injection Hr1 as <-.
      simpl. lia.
    + rewrite list_lookup_insert_ne in Hr1 by done.
      apply (HD c); [|done]. by apply Hext'.
Qed.


Lemma inv_Do_lock n (s s' : state) t pk :
  inv n s → Do_lock t pk s = Some s' → inv (S n) s'.
Proof.
  intros Hinv Hs. unfold Do_lock in Hs.
  destruct (threads s !! t) as [[ctx key| | | | | | |]|] eqn:Ht; try done.
  simpl in Hs. rewrite map_index_made in Hs.
  destruct (map_index (calls (grp s)) key) as [c0|] eqn:Hk.
  { destruct (heap s !! c0) as [r0|] eqn:Hr0; [|done]. injection Hs as <-.
    by eapply inv_Do_lock_follower. }
  assert (∃ m0, made (calls (grp s)) = Some m0) as [m0 Hm0]
    by (destruct (calls (grp s)); simpl; eauto).
  rewrite Hm0 in Hs. simpl in Hs. apply inv_S.
  assert (Hfresh : ∀ p', items p' = items (pool (grp s)) →
    inv n (set_pc t (LeaderCall ctx key (length (heap s)))
       (set_calls (Some (<[key := length (heap s)]> m0))
          (set_gh (set_owner (length (heap s)) t (gh s))
             (set_heap (<[length (heap s) := reset new_call]>
                          (heap s ++ [new_call])) (set_pool p' s)))))).
  { intros p' Hp'.
    assert (Hnone : heap s !! length (heap s) = None) by by apply lookup_ge_None.
    eapply inv_Do_lock_leader; eauto.
    - by rewrite lookup_app_r, Nat.sub_diag.
    - done.
    - intros c r Hr. by apply lookup_app_l_Some.
    - intros c r Hr Hne. apply lookup_snoc_Some in Hr as [[_ ?]|[? _]]; done.
    - intros c. rewrite Hp'. done.
    - rewrite Hp'. by destruct Hinv.
    - rewrite Hp'. intros Hin.
      destruct (inv_pool _ _ Hinv _ Hin) as (r & Hr & _). congruence. }
  destruct pk as [i|]; simpl in Hs.
  - destruct (items (pool (grp s)) !! i) as [c0|] eqn:Hi; [|done].
    assert (Hpl : pooled s c0) by (apply list_elem_of_lookup; eauto).
    destruct (inv_pool _ _ Hinv _ Hpl) as (r0 & Hr0 & Hcl).
    rewrite Hr0 in Hs. injection Hs as <-.
    eapply inv_Do_lock_leader; eauto.
    + intros c. simpl. apply list_elem_of_delete_inv.
    + simpl. eapply sublist_NoDup; [by destruct Hinv|apply sublist_delete].
    + simpl. apply not_elem_of_delete; [by destruct Hinv|done].
  - destruct (New (pool (grp s))); simpl in Hs.
    + rewrite lookup_app_r, Nat.sub_diag in Hs by done. simpl in Hs.
      injection Hs as <-. by apply Hfresh.
    + rewrite lookup_app_r, Nat.sub_diag in Hs by done. simpl in Hs.
      injection Hs as <-. apply (Hfresh (pool (grp s))). done.
Qed.

Theorem inv_step n (s s' : state) l :
  inv n s → step l s = Some s' → inv (S n) s'.
Proof.
  intros Hinv Hs. destruct l; simpl in Hs.
  - injection Hs as <-. by apply inv_S, inv_spawn.
  - injection Hs as <-. by apply inv_S, inv_spawn.
  - eauto using inv_Do_lock.
  - eauto using inv_S, inv_doCall_fn.
  - eauto using inv_S, inv_doCall_deferred.
  - eauto using inv_S, inv_Do_recycle.
  - eauto using inv_S, inv_Do_return.
  - eauto using inv_S, inv_Do_select_done.
  - eauto using inv_S, inv_Do_select_ctx.
  - eauto using inv_S, inv_Forget.
  - eauto using inv_S, inv_cancel.
  - eauto using inv_S, inv_pool_drop.
Qed.

Lemma run_snoc (ls : list label) l (s : state) :
  run (ls ++ [l]) s = run ls s ≫= step l.
Proof. unfold run. by rewrite foldl_app. Qed.

Lemma inv_run (g : Group) ls (s : state) :
  inv 0 (init g) → run ls (init g) = Some s → inv (length ls) s.
Proof.
  intros H0'. revert s. induction ls as [|l ls IH] using rev_ind; intros s Hs.
  - injection Hs as <-. done.
  - rewrite run_snoc in Hs. destruct (run ls (init g)) as [s1|] eqn:Hs1; [|done].
    simpl in Hs. rewrite length_app, Nat.add_comm. simpl.
    eapply inv_step; eauto.
Qed.

Theorem inv_reachable ls (s : state) : reachable ls s → inv (length ls) s.
Proof.
  intros [Hr|Hr]; (eapply inv_run; [|exact Hr]); by apply inv_init.
Qed.


(** ** Counting the invocations of [fn] *)

Lemma count_fst_NoDup (l : list (nat * outcome)) t :
  NoDup l.*1 →
  length (filter (λ x, x.1 = t) l) = if decide (t ∈ l.*1) then 1%nat else 0%nat.
Proof.
  induction l as [|[t' o] l IH]; simpl; intros Hnd.
  - done.
  - apply NoDup_cons in Hnd as [Hni Hnd]. specialize (IH Hnd).
    rewrite filter_cons. simpl. destruct (decide (t' = t)) as [->|Hne].
    + simpl. rewrite IH. rewrite decide_False by done.
      rewrite decide_True; [done|]. apply elem_of_cons. by left.
    + rewrite IH. case_decide as Hin.
      * rewrite decide_True; [done|]. apply elem_of_cons. by right.
      * rewrite decide_False; [done|]. intros [?|?]%elem_of_cons; done.
Qed.

Lemma invocations_le n (s : state) t : inv n s → (invocations s t ≤ 1)%nat.
Proof.
  intros Hinv. unfold invocations.
  rewrite count_fst_NoDup by by destruct Hinv. case_decide; lia.
Qed.

Lemma invocations_logged n (s : state) t o :
  inv n s → logged s t o → invocations s t = 1%nat.
Proof.
  intros Hinv Hl. unfold invocations.
  rewrite count_fst_NoDup by by destruct Hinv.
  rewrite decide_True; [done|]. apply list_elem_of_fmap. by exists (t, o).
Qed.

Lemma invocations_none n (s : state) t :
  inv n s → (∀ o, ¬ logged s t o) → invocations s t = 0%nat.
Proof.
  intros Hinv Hl. unfold invocations.
  rewrite count_fst_NoDup by by destruct Hinv.
  rewrite decide_False; [done|].
  intros ([t' o] & Heq & Hin)%list_elem_of_fmap. simpl in Heq. subst t'.
  by apply (Hl o).
Qed.

(** A thread that joined a call never ran [fn]. *)
Lemma follower_not_logged n (s : state) t l c o :
  inv n s → joined (gh s) !! t = Some (l, c) → ¬ logged s t o.
Proof.
  intros Hinv Hj Hl.
  destruct (inv_joined _ _ Hinv _ _ _ Hj) as (r & p & _ & Hp & Hf & _).
  destruct (inv_log _ _ Hinv _ _ Hl) as (p' & Hp' & Ha).
  rewrite Hp in Hp'. injection Hp' as <-.
  destruct p as [| | | | | | |[]]; done.
Qed.

(** Once [done] is closed the record of a call that was joined holds the
    outcome of the leader's invocation of [fn]. *)
Lemma follower_record n (s : state) t l c r :
  inv n s → joined (gh s) !! t = Some (l, c) → heap s !! c = Some r →
  done r = ChanClosed →
  ∃ o, logged s l o ∧ stored o r.
Proof.
  intros Hinv Hj Hr Hd.
  destruct (inv_joined _ _ Hinv _ _ _ Hj) as (r1 & p & Hr1 & _ & _ & Ho & Hdn & _).
  rewrite Hr in Hr1. injection Hr1 as <-.
  destruct (inv_owner _ _ Hinv _ _ Ho) as (r1 & pl & Hr1 & Hpl & Hi).
  rewrite Hr in Hr1. injection Hr1 as <-.
  assert (Hset : settled s c l r → ∃ o, logged s l o ∧ stored o r).
  { intros (_ & o & Hlog & [[(_ & _ & _ & ? & _) _]|(_ & _ & Hst)]); [done|eauto]. }
  destruct pl as [| | | | | | |[]]; simpl in Hi; try done.
  - destruct Hi as (_ & _ & ? & _). done.
  - destruct Hi as (_ & _ & ? & _). done.
  - destruct Hi as (_ & _ & _ & ?). done.
  - destruct Hi as (_ & ?). auto.
  - destruct Hi as (? & _). auto.
  - destruct Hi as (? & _). auto.
Qed.


(** ** The claims *)

(** C1, as the code has it.  Calls of [Do] that arrive for a key while the
    leader's call for it is in flight and was not forgotten join it as
    followers and do not run [fn]; [fn] is invoked at most once per call,
    and exactly once by a leader that has left [Do]; a follower never
    invokes it and reports [shared = true] when it returns; a leader some
    follower joined reports [shared = true], so it reports [false] only if
    none did.  The schedule is shorter than [2^63] steps, so that [dups]
    does not wrap around. *)
Theorem C1_single_execution (ls : list label) (s : state) :
  reachable ls s → Z.of_nat (length ls) < 2 ^ 63 →
  (∀ l key c r t ctx pk,
     in_flight s l key c → heap s !! c = Some r → forgotten r = false →
     threads s !! t = Some (DoStart ctx key) →
     ∃ s', step (Lock t pk) s = Some s'
           ∧ threads s' !! t = Some (FollowerSelect ctx c)
           ∧ joined (gh s') !! t = Some (l, c)
           ∧ fnlog (gh s') = fnlog (gh s))
  ∧ (∀ l, (invocations s l ≤ 1)%nat)
  ∧ (∀ l x, threads s !! l = Some (Exited x) →
       (∃ v sh e, x = ExitLeader v sh e) ∨ (∃ pe, x = ExitLeaderPanic pe) →
       invocations s l = 1%nat)
  ∧ (∀ t l c, joined (gh s) !! t = Some (l, c) →
       invocations s t = 0%nat
       ∧ (∀ x, threads s !! t = Some (Exited x) →
            (∃ v e, returned x = Some (v, true, e)) ∨ is_Some (raised x))
       ∧ (∀ v sh e, threads s !! l = Some (Exited (ExitLeader v sh e)) →
            sh = true)).
Proof.
  intros Hr Hn. apply inv_reachable in Hr as Hinv.
  split; [|split; [|split; [|intros t l c Hj; split; [|split]]]].
  - intros l key c r t ctx pk Hfl Hc Hfg Ht.
    assert (Ho : owner (gh s) !! c = Some l).
    { destruct Hfl as [[ctx' Hfl]|Hfl]; by apply (inv_thread _ _ Hinv) in Hfl. }
    assert (Hm : mapped s key c).
    { destruct (inv_owner _ _ Hinv _ _ Ho) as (r' & p & Hr' & Hp & Hi).
      rewrite Hc in Hr'. injection Hr' as <-.
      destruct Hfl as [[ctx' Hfl]|Hfl]; rewrite Hp in Hfl; injection Hfl as ->;
        simpl in Hi; unfold map_ok in Hi; rewrite Hfg in Hi; tauto. }
    unfold step, Do_lock. rewrite Ht. simpl. rewrite map_index_made, Hm, Hc.
    eexists. split; [done|]. simpl. unfold set_joined. rewrite Ho. simpl.
    rewrite list_lookup_insert_eq by eauto using lookup_lt_Some.
    by rewrite lookup_insert_eq.
  - intros l. by eapply invocations_le.
  - intros l x Hl Hx. pose proof (inv_thread _ _ Hinv _ _ Hl) as Hi.
    destruct Hx as [(v & sh & e & ->)|(pe & ->)]; simpl in Hi.
    + by eapply invocations_logged.
    + destruct Hi as [Hi _]. by eapply invocations_logged.
  - eapply invocations_none; [done|]. intros o. by eapply follower_not_logged.
  - intros x Hx.
    destruct (inv_joined _ _ Hinv _ _ _ Hj) as (r & p & _ & Hp & Hf & _).
    rewrite Hx in Hp. injection Hp as <-.
    destruct x; simpl in *; try done; eauto.
  - intros v sh e Hl.
    destruct (inv_joined _ _ Hinv _ _ _ Hj) as (r & p & Hc & _ & _ & Ho & _ & Hd).
    destruct (inv_owner _ _ Hinv _ _ Ho) as (r' & pl & Hc' & Hpl & Hi).
    rewrite Hc in Hc'. injection Hc' as <-.
    rewrite Hl in Hpl. injection Hpl as <-. simpl in Hi.
    destruct Hi as [_ ->]. apply Z.ltb_lt. specialize (Hd Hn). lia.
Qed.



(** C3.  The transition in which [fn] panics with [x] stores on the
    leader's record a descriptor with [x] and the stack snapshot taken then.
    Once that has happened: [fn] was invoked once; the record holds a
    descriptor with [x]; the record is not in the pool; the leader, once it
    has left [Do], has re-raised exactly this descriptor, with [done] closed
    if it was made and the record no longer in the map; and every follower
    of the call that has left [Do] has re-raised the same descriptor, unless
    it was cancelled. *)
Theorem C3_panic_propagation (ls : list label) (s : state) l x :
  reachable ls s → logged s l (FnPanic x) →
  (∀ s0 s1 ctx key c0 stk0,
     threads s0 !! l = Some (LeaderCall ctx key c0) →
     step (Fn l (FnPanic x) stk0) s0 = Some s1 →
     ∃ r1, heap s1 !! c0 = Some r1
           ∧ panicErr r1 = Some (PanicError x stk0))
  ∧ invocations s l = 1%nat
  ∧ ∃ c r stk,
      owner (gh s) !! c = Some l ∧ heap s !! c = Some r
      ∧ panicErr r = Some (PanicError x stk)
      ∧ ¬ pooled s c
      ∧ (∀ y, threads s !! l = Some (Exited y) →
           y = ExitLeaderPanic (PanicError x stk)
           ∧ done r ≠ ChanOpen ∧ ∀ key, ¬ mapped s key c)
      ∧ (∀ t y, joined (gh s) !! t = Some (l, c) →
           threads s !! t = Some (Exited y) →
           y = ExitFollowerPanic (PanicError x stk)
           ∨ ∃ e, y = ExitCancelled e).
Proof.
  intros Hr Hlog. apply inv_reachable in Hr as Hinv.
  split.
  { intros s0 s1 ctx key c0 stk0 Ht Hs. simpl in Hs. unfold doCall_fn in Hs.
    rewrite Ht in Hs. destruct (heap s0 !! c0) as [r0|] eqn:Hr0; [|done].
    injection Hs as <-. exists (store_outcome (FnPanic x) stk0 r0). simpl.
    split; [|done]. apply list_lookup_insert_eq. by eapply lookup_lt_Some. }
  split; [by eapply invocations_logged|].
  assert (Hnd : NoDup (fnlog (gh s)).*1) by by destruct Hinv.
  destruct (inv_log _ _ Hinv _ _ Hlog) as (p & Hp & Ha).
  pose proof (inv_thread _ _ Hinv _ _ Hp) as Hti.
  assert (∃ c, owner (gh s) !! c = Some l) as [c Ho].
  { destruct p as [| | | | |c v e pk| |[]]; simpl in Ha, Hti; try done; eauto.
    - destruct Hti as (_ & o & Hlog' & Hag).
      assert (o = FnPanic x) as -> by eauto using logged_inj.
      destruct Hag as [_ ?]. eauto.
    - assert (FnReturn v e = FnPanic x) by eauto using logged_inj. done.
    - by destruct Hti as [_ ?]. }
  destruct (inv_owner _ _ Hinv _ _ Ho) as (r & p' & Hc & Hp' & Hi).
  rewrite Hp in Hp'. injection Hp' as <-.
  assert (Hstored : ∀ o, logged s l o → stored o r →
            ∃ stk, panicErr r = Some (PanicError x stk)).
  { intros o Hlog' Hst. assert (o = FnPanic x) as -> by eauto using logged_inj.
    done. }
  assert (Hset : settled s c l r →
            (∃ stk, panicErr r = Some (PanicError x stk)) ∧ ¬ pooled s c
            ∧ done r ≠ ChanOpen).
  { intros (Hd & o & Hlog' & [[_ (v & e & ->)]|(Hnp & _ & Hst)]).
    - assert (FnReturn v e = FnPanic x) by eauto using logged_inj. done.
    - eauto. }
  assert ((∃ stk, panicErr r = Some (PanicError x stk)) ∧ ¬ pooled s c
          ∧ (∀ y, p = Exited y → done r ≠ ChanOpen ∧ raised y = panicErr r))
    as ([stk Hpe] & Hnp & Hex).
  { destruct p as [| | | | |c' v e pk| |[]]; simpl in Ha, Hi; try done.
    - destruct Hi as (_ & ? & _ & (o & ? & ?) & _). split; [eauto|]. done.
    - destruct Hi as (_ & ? & _ & (o & ? & ?)). split; [eauto|]. done.
    - destruct Hi as (_ & Hs). destruct (Hset Hs) as (? & ? & ?). done.
    - simpl in Hti.
      assert (FnReturn v e = FnPanic x) by eauto using logged_inj. done.
    - destruct Hi as (Hs & Hpe). destruct (Hset Hs) as (? & ? & ?).
      split; [done|]. split; [done|]. intros y [= <-]. by split. }
  exists c, r, stk. do 4 (split; [done|]). split.
  - intros y Hy. rewrite Hp in Hy. injection Hy as ->.
    destruct (Hex _ eq_refl) as [Hd Hy]. rewrite Hpe in Hy.
    split; [|split; [done|]].
    + destruct y; simpl in Ha, Hy; try done. congruence.
    + intros key Hm.
      destruct (inv_map _ _ Hinv _ _ Hm) as (l' & r' & Ho' & _ & _ & Hf).
      assert (l' = l) as -> by congruence.
      destruct Hf as [[ctx Hf]|Hf]; congruence.
  - intros t y Hj Ht.
    destruct (inv_joined _ _ Hinv _ _ _ Hj) as (r' & pt & _ & Hpt & Hf & _).
    rewrite Ht in Hpt. injection Hpt as <-.
    pose proof (inv_thread _ _ Hinv _ _ Ht) as Htt.
    destruct y as [v e|pe|e| | | |]; simpl in Hf, Htt; try done; eauto.
    + destruct Htt as (l' & c' & r1 & Hj' & Hc' & _ & ? & _).
      rewrite Hj in Hj'. injection Hj' as <- <-. congruence.
    + destruct Htt as (l' & c' & r1 & Hj' & Hc' & _ & ?).
      rewrite Hj in Hj'. injection Hj' as <- <-. left. congruence.
Qed.


Lemma set_pc_set_pc (s : state) t t' x p :
  t ≠ t' → set_pc t' p (set_pc t x s) = set_pc t x (set_pc t' p s).
Proof.
  intros Hne. unfold set_pc. simpl. f_equal. by apply list_insert_insert_ne.
Qed.

(** Moving thread [t] commutes with every transition of the others. *)
(** The common part of the cases of [step_set_pc]. *)
Ltac commute_step :=
  simpl; rewrite (list_lookup_insert_ne (threads _)) by done;
  repeat case_match; simplify_eq/=; try done;
  rewrite <- set_pc_set_pc by done; done.

Lemma step_set_pc (l : label) (s : state) t x p :
  threads s !! t = Some p → actor l ≠ Some t →
  step l (set_pc t x s) = set_pc t x <$> step l s.
Proof.
  intros Ht Ha.
  assert (Hlt : (t < length (threads s))%nat) by eauto using lookup_lt_Some.
  destruct l as [ctx key|key|t' pk|t' o stk|t'|t'|t'|t'|t'|t'|ctx e|i];
    simpl in *; try (assert (t ≠ t') by congruence).
  - unfold spawn, set_pc. simpl. by rewrite insert_app_l.
  - unfold spawn, set_pc. simpl. by rewrite insert_app_l.
  - unfold Do_lock. commute_step.
  - unfold doCall_fn. commute_step.
  - unfold doCall_deferred. commute_step.
  - unfold Do_recycle. commute_step.
  - unfold Do_return. commute_step.
  - unfold Do_select_done. commute_step.
  - unfold Do_select_ctx. commute_step.
  - unfold Forget. commute_step.
  - unfold cancel. simpl. by destruct (ctxs s !! ctx).
  - unfold pool_drop. simpl. by destruct (items (pool (grp s)) !! i).
Qed.


(** A transition of another thread, or of the environment, leaves the
    program point of [t] alone. *)
Lemma step_other (l : label) (s s' : state) t p :
  actor l ≠ Some t → step l s = Some s' → threads s !! t = Some p →
  threads s' !! t = Some p.
Proof.
  intros Ha Hs Ht.
  assert (set_pc t p s = s) as Hid.
  { unfold set_pc. rewrite list_insert_id by done. by destruct s. }
  pose proof (step_set_pc l s t p p Ht Ha) as Hc.
  rewrite Hid, Hs in Hc. simpl in Hc. injection Hc as Hc. rewrite Hc. simpl.
  apply list_lookup_insert_eq.
  assert (Hlen : ∀ l s s', step l s = Some s' →
            (length (threads s) ≤ length (threads s'))%nat).
  { clear. intros l s s' Hs.
    destruct l; simpl in Hs;
      [injection Hs as <-; simpl; rewrite length_app; lia..| | | | | | | | | |];
      unfold Do_lock, doCall_fn, doCall_deferred, Do_recycle, Do_return,
        Do_select_done, Do_select_ctx, Forget, cancel, pool_drop in Hs;
      repeat case_match; simplify_eq/=; rewrite ?length_insert; done. }
  apply Hlen in Hs. apply lookup_lt_Some in Ht. lia.
Qed.

(** C4.  A follower at its [select] whose context is done while [done] is
    not closed can only leave through the [ctx.Done()] arm: it returns the
    zero value, [shared = true] and [ctx.Err()]; nothing but its own
    program point changes; and every transition of any other thread, the
    leader's included, is possible after it exactly as before it, with the
    same result. *)
Theorem C4_follower_cancel (s : state) t ctx c r e :
  threads s !! t = Some (FollowerSelect ctx c) → heap s !! c = Some r →
  done r ≠ ChanClosed → ctxs s !! ctx = Some e →
  step (SelectCtx t) s = Some (set_pc t (Exited (ExitCancelled e)) s)
  ∧ returned (ExitCancelled e) = Some (inhabitant, true, Some e)
  ∧ (∀ l s', step l s = Some s' → threads s' !! t ≠ threads s !! t →
       l = SelectCtx t)
  ∧ (∀ l, actor l ≠ Some t →
       step l (set_pc t (Exited (ExitCancelled e)) s)
       = set_pc t (Exited (ExitCancelled e)) <$> step l s).
Proof.
  intros Ht Hc Hd He. split; [|split; [done|split]].
  - simpl. unfold Do_select_ctx. by rewrite Ht, He.
  - intros l s' Hs Hne.
    destruct (decide (actor l = Some t)) as [Ha|Ha].
    2:{ exfalso. apply Hne. rewrite Ht. eapply step_other; eauto. }
    destruct l; simpl in Ha, Hs; try done; injection Ha as ->; try done;
      unfold Do_lock, doCall_fn, doCall_deferred, Do_recycle, Do_return,
        Do_select_done, Forget in Hs;
      rewrite Ht in Hs; try done.
    rewrite Hc in Hs. by destruct (done r).
  - intros l Ha. by eapply step_set_pc.
Qed.


Lemma recyclable_false (r : call) :
  recyclable r = false ↔ panicErr r ≠ None ∨ dups r ≠ 0 ∨ done r ≠ ChanNil.
Proof.
  rewrite <- not_true_iff_false, recyclable_true.
  destruct (decide (panicErr r = None)), (decide (dups r = 0)),
    (decide (done r = ChanNil)); tauto.
Qed.

Lemma discarded_update (s s' : state) c c0 r0 r0' :
  heap s !! c0 = Some r0 → heap s' = <[c0 := r0']> (heap s) →
  (recyclable r0 = false → recyclable r0' = false) →
  (pooled s' c → pooled s c) →
  discarded s c → discarded s' c.
Proof.
  intros H0' Hh Hrec Hp [(r & Hr & Hn) Hnp]. split; [|auto].
  rewrite Hh. destruct (decide (c = c0)) as [->|Hne].
  - exists r0'. rewrite list_lookup_insert_eq by eauto using lookup_lt_Some.
    split; [done|]. apply Hrec. congruence.
  - exists r. by rewrite list_lookup_insert_ne.
Qed.

Lemma discarded_step (l : label) (s s' : state) c :
  step l s = Some s' → discarded s c → discarded s' c.
Proof.
  intros Hs Hd. pose proof Hd as [(r & Hr & Hn) Hnp].
  assert (Hc : (c < length (heap s))%nat) by eauto using lookup_lt_Some.
  destruct l as [ctx key|key|t pk|t o stk|t|t|t|t|t|t|ctx e|i]; simpl in Hs.
  - by injection Hs as <-.
  - by injection Hs as <-.
  - unfold Do_lock in Hs.
    destruct (threads s !! t) as [[ctx key| | | | | | |]|]; try done.
    simpl in Hs. destruct (map_index (made (calls (grp s))) key) as [c0|].
    + destruct (heap s !! c0) as [r0|] eqn:Hr0; [|done]. injection Hs as <-.
      apply (discarded_update s _ c c0 r0 (join r0)); [done|done| |done|done].
      intros _. apply recyclable_false. right. right. simpl.
      by destruct (done r0).
    + assert (∃ m0, made (calls (grp s)) = Some m0) as [m0 Hm0]
        by (destruct (calls (grp s)); simpl; eauto).
      rewrite Hm0 in Hs. simpl in Hs.
      destruct pk as [i|]; simpl in Hs.
      * destruct (items (pool (grp s)) !! i) as [c0|] eqn:Hi; [|done].
        destruct (heap s !! c0) as [r0|] eqn:Hr0; [|done]. injection Hs as <-.
        assert (c ≠ c0).
        { intros ->. apply Hnp. apply list_elem_of_lookup. eauto. }
        split.
        -- exists r. simpl. by rewrite list_lookup_insert_ne.
        -- unfold pooled. simpl. intros Hin.
           by apply list_elem_of_delete_inv in Hin.
      * assert (Hfr : ∀ p', items p' = items (pool (grp s)) →
          discarded (set_pc t (LeaderCall ctx key (length (heap s)))
            (set_calls (Some (<[key := length (heap s)]> m0))
              (set_gh (set_owner (length (heap s)) t (gh s))
                (set_heap (<[length (heap s) := reset new_call]>
                             (heap s ++ [new_call])) (set_pool p' s))))) c).
        { intros p' Hp'. split.
          - exists r. simpl. rewrite list_lookup_insert_ne by lia.
            split; [by apply lookup_app_l_Some|done].
          - unfold pooled. simpl. by rewrite Hp'. }
        destruct (New (pool (grp s))); simpl in Hs;
          rewrite lookup_app_r, Nat.sub_diag in Hs by done; simpl in Hs;
          injection Hs as <-; by apply Hfr.
  - unfold doCall_fn in Hs.
    destruct (threads s !! t) as [[| |ctx key c0| | | | |]|]; try done.
    destruct (heap s !! c0) as [r0|] eqn:Hr0; [|done]. injection Hs as <-.
    apply (discarded_update s _ c c0 r0 (store_outcome o stk r0));
      [done|done| |done|done].
    rewrite !recyclable_false. destruct o; simpl; [done|]. by left.
  - unfold doCall_deferred in Hs.
    destruct (threads s !! t) as [[| | |key c0| | | |]|]; try done.
    destruct (heap s !! c0) as [r0|] eqn:Hr0; [|done].
    destruct (match done r0 with ChanNil => Some ChanNil | d => chan_close d end)
      as [d|] eqn:Hcl; injection Hs as <-; [|done].
    eapply (discarded_update s _ c c0 r0); [done|done| |done|done].
    rewrite !recyclable_false. simpl.
    destruct (done r0); simpl in Hcl; simplify_eq; intuition congruence.
  - unfold Do_recycle in Hs.
    destruct (threads s !! t) as [[| | | |c0| | |]|]; try done.
    destruct (heap s !! c0) as [r0|] eqn:Hr0; [|done]. injection Hs as <-.
    destruct (recyclable r0) eqn:Hrec; [|done].
    assert (c ≠ c0) by (intros ->; congruence).
    split.
    + exists r. simpl. by rewrite list_lookup_insert_ne.
    + unfold pooled. simpl. intros [?|?]%elem_of_cons; done.
  - unfold Do_return in Hs. repeat case_match; by simplify_eq.
  - unfold Do_select_done in Hs. repeat case_match; by simplify_eq.
  - unfold Do_select_ctx in Hs. repeat case_match; by simplify_eq.
  - unfold Forget in Hs.
    destruct (threads s !! t) as [[| | | | | |key|]|]; try done.
    injection Hs as <-.
    destruct (map_index (calls (grp s)) key) as [c0|]; [|done].
    destruct (heap s !! c0) as [r0|] eqn:Hr0; [|done].
    eapply (discarded_update s _ c c0 r0); [done|done| |done|done]. done.
  - unfold cancel in Hs. repeat case_match; by simplify_eq.
  - unfold pool_drop in Hs.
    destruct (items (pool (grp s)) !! i); [|done]. injection Hs as <-.
    split; [eauto|]. unfold pooled. simpl. intros Hin.
    by apply list_elem_of_delete_inv in Hin.
Qed.

Lemma discarded_run (ls : list label) (s s' : state) c :
  run ls s = Some s' → discarded s c → discarded s' c.
Proof.
  revert s'. induction ls as [|l ls IH] using rev_ind; intros s' Hs Hd.
  - by injection Hs as <-.
  - rewrite run_snoc in Hs. destruct (run ls s) as [s1|]; [|done].
    eapply discarded_step; eauto.
Qed.

(** [done] is never set back to nil: a channel, once made, stays with the
    record. *)
Lemma done_update (h : list call) c c0 r r0 r0' :
  h !! c0 = Some r0 → h !! c = Some r →
  (done r0 ≠ ChanNil → done r0' ≠ ChanNil) →
  ∃ r', <[c0 := r0']> h !! c = Some r' ∧ (done r ≠ ChanNil → done r' ≠ ChanNil).
Proof.
  intros H0' Hr Hd. destruct (decide (c = c0)) as [->|Hne].
  - exists r0'. rewrite list_lookup_insert_eq by eauto using lookup_lt_Some.
    split; [done|]. by simplify_eq.
  - exists r. by rewrite list_lookup_insert_ne.
Qed.

Lemma done_step (l : label) (s s' : state) c r :
  step l s = Some s' → heap s !! c = Some r →
  ∃ r', heap s' !! c = Some r' ∧ (done r ≠ ChanNil → done r' ≠ ChanNil).
Proof.
  intros Hs Hr.
  assert (Hc : (c < length (heap s))%nat) by eauto using lookup_lt_Some.
  destruct l as [ctx key|key|t pk|t o stk|t|t|t|t|t|t|ctx e|i]; simpl in Hs.
  - injection Hs as <-. eauto.
  - injection Hs as <-. eauto.
  - unfold Do_lock in Hs.
    destruct (threads s !! t) as [[ctx key| | | | | | |]|]; try done.
    simpl in Hs. destruct (map_index (made (calls (grp s))) key) as [c0|].
    + destruct (heap s !! c0) as [r0|] eqn:Hr0; [|done]. injection Hs as <-.
      simpl. eapply done_update; eauto. simpl. by destruct (done r0).
    + assert (∃ m0, made (calls (grp s)) = Some m0) as [m0 Hm0]
        by (destruct (calls (grp s)); simpl; eauto).
      rewrite Hm0 in Hs. simpl in Hs.
      destruct pk as [i|]; simpl in Hs.
      * destruct (items (pool (grp s)) !! i) as [c0|]; [|done].
        destruct (heap s !! c0) as [r0|] eqn:Hr0; [|done]. injection Hs as <-.
        simpl. eapply done_update; eauto.
      * assert (Hfr : ∃ r', <[length (heap s) := reset new_call]>
                              (heap s ++ [new_call]) !! c = Some r'
                            ∧ (done r ≠ ChanNil → done r' ≠ ChanNil)).
        { exists r. rewrite list_lookup_insert_ne by lia.
          split; [by apply lookup_app_l_Some|done]. }
        destruct (New (pool (grp s))); simpl in Hs;
          rewrite lookup_app_r, Nat.sub_diag in Hs by done; simpl in Hs;
          injection Hs as <-; exact Hfr.
  - unfold doCall_fn in Hs.
    destruct (threads s !! t) as [[| |ctx key c0| | | | |]|]; try done.
    destruct (heap s !! c0) as [r0|] eqn:Hr0; [|done]. injection Hs as <-.
    simpl. eapply done_update; eauto. by destruct o.
  - unfold doCall_deferred in Hs.
    destruct (threads s !! t) as [[| | |key c0| | | |]|]; try done.
    destruct (heap s !! c0) as [r0|] eqn:Hr0; [|done].
    destruct (match done r0 with ChanNil => Some ChanNil | d => chan_close d end)
      as [d|] eqn:Hcl; injection Hs as <-; [|eauto].
    simpl. eapply done_update; eauto. simpl.
    destruct (done r0); simpl in Hcl; by simplify_eq.
  - unfold Do_recycle in Hs.
    destruct (threads s !! t) as [[| | | |c0| | |]|]; try done.
    destruct (heap s !! c0) as [r0|] eqn:Hr0; [|done]. injection Hs as <-.
    destruct (recyclable r0); [|eauto].
    simpl. eapply done_update; eauto.
  - unfold Do_return in Hs. repeat case_match; simplify_eq; eauto.
  - unfold Do_select_done in Hs. repeat case_match; simplify_eq; eauto.
  - unfold Do_select_ctx in Hs. repeat case_match; simplify_eq; eauto.
  - unfold Forget in Hs.
    destruct (threads s !! t) as [[| | | | | |key|]|]; try done.
    injection Hs as <-. simpl.
    destruct (map_index (calls (grp s)) key) as [c0|]; [|eauto].
    destruct (heap s !! c0) as [r0|] eqn:Hr0; [|eauto].
    eapply done_update; eauto.
  - unfold cancel in Hs. repeat case_match; simplify_eq; eauto.
  - unfold pool_drop in Hs. repeat case_match; simplify_eq; eauto.
Qed.

Lemma done_run (ls : list label) (s s' : state) c r :
  run ls s = Some s' → heap s !! c = Some r → done r ≠ ChanNil →
  ∃ r', heap s' !! c = Some r' ∧ done r' ≠ ChanNil.
Proof.
  revert s'. induction ls as [|l ls IH] using rev_ind; intros s' Hs Hr Hd.
  - injection Hs as <-. eauto.
  - rewrite run_snoc in Hs. destruct (run ls s) as [s1|]; [|done].
    destruct (IH s1 eq_refl Hr Hd) as (r1 & Hr1 & Hd1).
    destruct (done_step _ _ _ _ _ Hs Hr1) as (r' & Hr' & Hd'). eauto.
Qed.

(** C5.  The leader's epilogue puts the record into the pool exactly when
    it carries no panic, [dups] is 0 and [done] is nil; [panicErr] is nil
    exactly when [fn] returned, and [done] is nil only if the record never
    had a channel, in whatever earlier state.  When the record is put,
    [val] and [err] were set to their zero values before the [Put];
    otherwise heap and pool are as before and the record is in the pool in
    no later state. *)
Theorem C5_recycle (ls : list label) (s : state) t c r :
  reachable ls s → threads s !! t = Some (LeaderAfter c) →
  heap s !! c = Some r →
  ∃ s', step (Recycle t) s = Some s'
    ∧ (pooled s' c ↔ panicErr r = None ∧ dups r = 0 ∧ done r = ChanNil)
    ∧ (panicErr r = None ↔ ∃ v e, logged s t (FnReturn v e))
    ∧ (done r = ChanNil →
         ∀ ls0 s0 r0, run ls0 s0 = Some s → heap s0 !! c = Some r0 →
                      done r0 = ChanNil)
    ∧ (pooled s' c →
         pool (grp s') = pool_Put c (pool (grp s))
         ∧ ∃ r', heap s' !! c = Some r' ∧ val r' = inhabitant ∧ err r' = None
                 ∧ panicErr r' = None ∧ done r' = ChanNil ∧ dups r' = 0)
    ∧ (¬ pooled s' c →
         heap s' = heap s ∧ grp s' = grp s
         ∧ ∀ ls' s'', run ls' s' = Some s'' → ¬ pooled s'' c).
Proof.
  intros Hr Ht Hc. apply inv_reachable in Hr as Hinv.
  pose proof (inv_thread _ _ Hinv _ _ Ht) as Ho. simpl in Ho.
  destruct (inv_owner _ _ Hinv _ _ Ho) as (r' & p & Hc' & Hp & Hi).
  rewrite Hc in Hc'. injection Hc' as <-. rewrite Ht in Hp. injection Hp as <-.
  simpl in Hi. destruct Hi as (_ & Hnp & _ & o & Hlog & Hst).
  assert (Hlt : (c < length (heap s))%nat) by eauto using lookup_lt_Some.
  assert (Hpanic : panicErr r = None ↔ ∃ v e, logged s t (FnReturn v e)).
  { split.
    - intros Hpe. destruct o as [v e|x]; [eauto|].
      destruct Hst as [stk Hst]. congruence.
    - intros (v & e & Hlog').
      assert (o = FnReturn v e) as ->
        by (eapply logged_inj; eauto; by destruct Hinv).
      by destruct Hst as (_ & _ & ?). }
  assert (Hnever : done r = ChanNil →
            ∀ ls0 s0 r0, run ls0 s0 = Some s → heap s0 !! c = Some r0 →
                         done r0 = ChanNil).
  { intros Hd ls0 s0 r0 Hrun Hr0.
    destruct (decide (done r0 = ChanNil)) as [|Hne]; [done|].
    destruct (done_run _ _ _ _ _ Hrun Hr0 Hne) as (r1 & Hr1 & Hd1). congruence. }
  simpl. unfold Do_recycle. rewrite Ht, Hc. eexists. split; [done|].
  destruct (recyclable r) eqn:Hrec.
  - pose proof Hrec as (? & ? & ?)%recyclable_true.
    assert (Hin : pooled (set_pc t (LeaderExit c (val r) (err r)
                    (bool_decide (panicErr r ≠ None)))
              (set_pool (pool_Put c (pool (grp s)))
                 (set_heap (<[c:=scrub r]> (heap s)) s))) c).
    { unfold pooled. simpl. apply elem_of_cons. by left. }
    split; [done|]. split; [done|]. split; [done|]. split; [|done].
    intros _. split; [done|].
    exists (scrub r). simpl. by rewrite list_lookup_insert_eq.
  - assert (Hnin : ¬ pooled (set_pc t (LeaderExit c (val r) (err r)
                    (bool_decide (panicErr r ≠ None))) s) c) by done.
    split; [|split; [done|split; [done|split; [done|]]]].
    + split; [done|]. intros ?%recyclable_true. congruence.
    + intros _. split; [done|]. split; [done|]. intros ls' s'' Hrun.
      eapply (discarded_run ls' _ s'' c Hrun). split; [|done].
      exists r. done.
Qed.

(** C6, as the code has it.  A record that [Get] hands out has [done] nil,
    [dups] 0, zero [val], nil [err] and no panic; [forgotten] is not
    promised, and after the leader's reset (lines 90-92) the record is
    equal to a new one. *)
Theorem C6_pool_record (ls : list label) (s : state) pk c p' h' :
  reachable ls s →
  pool_Get pk (pool (grp s)) (heap s) = Some (Some c, p', h') →
  ∃ r, h' !! c = Some r
       ∧ done r = ChanNil ∧ dups r = 0 ∧ val r = inhabitant
       ∧ err r = None ∧ panicErr r = None
       ∧ reset r = new_call.
Proof.
  intros Hr Hg. apply inv_reachable in Hr as Hinv.
  destruct pk as [i|]; simpl in Hg.
  - destruct (items (pool (grp s)) !! i) as [c0|] eqn:Hi; [|done].
    injection Hg as <- <- <-.
    assert (Hpl : pooled s c0) by (apply list_elem_of_lookup; eauto).
    destruct (inv_pool _ _ Hinv _ Hpl) as (r & Hc & Hv & He & Hpe & Hd & Hdu).
    exists r. repeat split; auto. destruct r. simpl in *. by subst.
  - destruct (New (pool (grp s))); [|done]. injection Hg as <- <- <-.
    exists new_call. rewrite lookup_app_r, Nat.sub_diag by done. done.
Qed.

(** C7.  An entry of the map refers to the record of a leader that is in
    flight under that key and was not forgotten; and the critical section
    of a leader's deferred function runs without fault and deletes from
    the map what refers to the leader's own record, leaving every other
    entry as it is: if the call was forgotten the map does not change. *)
Theorem C7_cleanup_own_entry (ls : list label) (s : state) :
  reachable ls s →
  (∀ key c, mapped s key c →
     ∃ l r, in_flight s l key c ∧ owner (gh s) !! c = Some l
            ∧ heap s !! c = Some r ∧ forgotten r = false)
  ∧ (∀ t key c, threads s !! t = Some (LeaderDefer key c) →
       ∃ s' r, step (Deferred t) s = Some s' ∧ heap s !! c = Some r
         ∧ threads s' !! t = Some (LeaderAfter c)
         ∧ (∀ key' c', mapped s' key' c' ↔ mapped s key' c' ∧ c' ≠ c)
         ∧ (forgotten r = true → calls (grp s') = calls (grp s))).
Proof.
  intros Hr. apply inv_reachable in Hr as Hinv. split.
  - intros key c Hm. destruct (inv_map _ _ Hinv _ _ Hm) as (l & r & ? & ? & ? & ?).
    exists l, r. done.
  - intros t key c Ht.
    pose proof (inv_thread _ _ Hinv _ _ Ht) as Ho. simpl in Ho.
    destruct (inv_owner _ _ Hinv _ _ Ho) as (r & p & Hc & Hp & Hi).
    rewrite Ht in Hp. injection Hp as <-. simpl in Hi.
    destruct Hi as (_ & _ & Hd & _).
    assert (Hlt : (t < length (threads s))%nat) by eauto using lookup_lt_Some.
    pose proof (deferred_mapped _ _ _ _ _ _ Hinv Ht Hc) as Hm.
    simpl. unfold doCall_deferred. rewrite Ht, Hc.
    destruct (done r) eqn:Hdr; [| |done]; simpl; eexists _, r;
      (split; [done|]); (split; [done|]); simpl;
      rewrite list_lookup_insert_eq by done; (split; [done|]);
      (split; [exact Hm|]); by intros ->.
Qed.

(** C9.  [Forget] always completes; it sets [forgotten] on the record that
    is mapped at the key, if there is one, and the key has no entry
    afterwards, while the entries of other keys, the pool and the other
    records are untouched; in which state the record's leader is plays no
    role.  Without an entry for the key, heap and map stay as they are. *)
Theorem C9_Forget (ls : list label) (s : state) t key :
  reachable ls s → threads s !! t = Some (ForgetStart key) →
  ∃ s', step (DoForget t) s = Some s'
    ∧ threads s' = <[t := Exited ExitForget]> (threads s)
    ∧ pool (grp s') = pool (grp s) ∧ ctxs s' = ctxs s
    ∧ (∀ key', map_index (calls (grp s')) key'
               = if decide (key = key') then None
                 else map_index (calls (grp s)) key')
    ∧ match map_index (calls (grp s)) key with
      | Some c =>
          ∃ r, heap s !! c = Some r
               ∧ heap s' = <[c := Call (val r) (err r) (panicErr r) (done r)
                                        (dups r) true]> (heap s)
      | None => heap s' = heap s ∧ calls (grp s') = calls (grp s)
      end.
Proof.
  intros Hr Ht. apply inv_reachable in Hr as Hinv.
  simpl. unfold Forget. rewrite Ht. eexists. split; [done|]. simpl.
  do 3 (split; [done|]). split; [apply map_index_delete|].
  destruct (map_index (calls (grp s)) key) as [c|] eqn:Hk.
  - destruct (inv_map _ _ Hinv _ _ Hk) as (l & r & _ & Hc & _).
    exists r. by rewrite Hc.
  - split; [done|]. by apply map_delete_absent.
Qed.

Lemma New_step (l : label) (s s' : state) :
  step l s = Some s' → New (pool (grp s')) = New (pool (grp s)).
Proof.
  intros Hs.
  destruct l; simpl in Hs;
    unfold Do_lock, doCall_fn, doCall_deferred, Do_recycle, Do_return,
      Do_select_done, Do_select_ctx, Forget, cancel, pool_drop, pool_Get in Hs;
    repeat case_match; by simplify_eq/=.
Qed.

Lemma New_run (ls : list label) (s s' : state) :
  run ls s = Some s' → New (pool (grp s')) = New (pool (grp s)).
Proof.
  revert s'. induction ls as [|l ls IH] using rev_ind; intros s' Hs.
  - by injection Hs as <-.
  - rewrite run_snoc in Hs. destruct (run ls s) as [s1|]; [|done].
    simpl in Hs. apply New_step in Hs. rewrite Hs. by apply IH.
Qed.

(** C10.  From the zero value of [Group], under any schedule: no call has
    faulted; the pool still has no [New]; a call of [Do] can always take
    its critical section with an empty answer of [Get], after which the
    map is not nil, and when its key has no entry it leads with a record
    freshly allocated at the end of the heap and installed under the key;
    a call of [Forget] always completes, and on the nil map it changes
    neither the group nor the heap. *)
Theorem C10_zero_value (ls : list label) (s : state) :
  run ls (init zero_Group) = Some s →
  (∀ t, threads s !! t ≠ Some (Exited ExitFault))
  ∧ New (pool (grp s)) = false
  ∧ (∀ t ctx key, threads s !! t = Some (DoStart ctx key) →
       ∃ s', step (Lock t PickNothing) s = Some s'
         ∧ is_Some (calls (grp s'))
         ∧ threads s' !! t ≠ Some (Exited ExitFault)
         ∧ (map_index (calls (grp s)) key = None →
              pool_Get PickNothing (pool (grp s)) (heap s)
              = Some (None, pool (grp s), heap s)
              ∧ threads s' !! t = Some (LeaderCall ctx key (length (heap s)))
              ∧ heap s' = heap s ++ [new_call]
              ∧ mapped s' key (length (heap s))))
  ∧ (∀ t key, threads s !! t = Some (ForgetStart key) →
       ∃ s', step (DoForget t) s = Some s'
         ∧ threads s' !! t = Some (Exited ExitForget)
         ∧ (calls (grp s) = None → grp s' = grp s ∧ heap s' = heap s)).
Proof.
  intros Hrun.
  assert (Hinv : inv (length ls) s) by (apply inv_reachable; by right).
  assert (HNew : New (pool (grp s)) = false) by (by apply New_run in Hrun).
  split; [|split; [done|split]].
  - intros t Ht. by apply (inv_thread _ _ Hinv) in Ht.
  - intros t ctx key Ht.
    assert (Hlt : (t < length (threads s))%nat) by eauto using lookup_lt_Some.
    assert (∃ m0, made (calls (grp s)) = Some m0) as [m0 Hm0]
      by (destruct (calls (grp s)); simpl; eauto).
    simpl. unfold Do_lock. rewrite Ht. simpl. rewrite map_index_made.
    destruct (map_index (calls (grp s)) key) as [c|] eqn:Hk.
    + destruct (inv_map _ _ Hinv _ _ Hk) as (l & r & _ & Hc & _).
      rewrite Hc. eexists. split; [done|]. simpl. rewrite Hm0.
      rewrite list_lookup_insert_eq by done. done.
    + rewrite HNew. simpl. rewrite lookup_app_r, Nat.sub_diag by done. simpl.
      rewrite Hm0. simpl. eexists. split; [done|]. simpl.
      rewrite list_lookup_insert_eq by done. do 2 (split; [done|]).
      intros _. do 2 (split; [done|]). split.
      * apply list_insert_id. by rewrite lookup_app_r, Nat.sub_diag.
      * unfold mapped. simpl. by rewrite lookup_insert_eq.
  - intros t key Ht.
    assert (Hlt : (t < length (threads s))%nat) by eauto using lookup_lt_Some.
    simpl. unfold Forget. rewrite Ht. eexists. split; [done|]. simpl.
    rewrite list_lookup_insert_eq by done. split; [done|].
    intros Hnil. rewrite Hnil. simpl. split; [|done].
    destruct (grp s) as [m pl]. simpl in *. by subst.
Qed.

(** ** Further properties *)

(** X1.  [Do] and [Forget] never fault, whichever way the group was made:
    no call has ended in a run-time panic of its own, and a leader about to
    run [close(c.done)] never finds the channel closed already. *)
Theorem Do_never_faults (ls : list label) (s : state) :
  reachable ls s →
  (∀ t, threads s !! t ≠ Some (Exited ExitFault))
  ∧ (∀ t key c r, threads s !! t = Some (LeaderDefer key c) →
       heap s !! c = Some r → done r ≠ ChanClosed)
  ∧ (∀ t c v e r, threads s !! t = Some (LeaderExit c v e true) →
       heap s !! c = Some r → panicErr r ≠ None).
Proof.
  intros Hr. apply inv_reachable in Hr as Hinv. split; [|split].
  - intros t Ht. by apply (inv_thread _ _ Hinv) in Ht.
  - intros t key c r Ht Hc.
    pose proof (inv_thread _ _ Hinv _ _ Ht) as Ho. simpl in Ho.
    destruct (inv_owner _ _ Hinv _ _ Ho) as (r' & p & Hc' & Hp & Hi).
    rewrite Hc in Hc'. injection Hc' as <-. rewrite Ht in Hp. injection Hp as <-.
    simpl in Hi. by destruct Hi as (_ & _ & ? & _).
  - intros t c v e r Ht Hc.
    pose proof (inv_thread _ _ Hinv _ _ Ht) as (_ & o & Hlog & Hag).
    destruct o as [v' e'|x]; simpl in Hag; [by destruct Hag as (_ & _ & ?)|].
    destruct Hag as [_ Ho].
    destruct (inv_owner _ _ Hinv _ _ Ho) as (r' & p & Hc' & Hp & Hi).
    rewrite Hc in Hc'. injection Hc' as <-. rewrite Ht in Hp. injection Hp as <-.
    simpl in Hi. destruct Hi as (_ & _ & o' & Hlog' & Hcase).
    assert (o' = FnPanic x) as ->
      by (eapply logged_inj; eauto; by destruct Hinv).
    destruct Hcase as [(_ & ? & ? & ?)|(_ & _ & stk & Hpe)]; [done|].
    by rewrite Hpe.
Qed.

(** X2.  Only one execution is in flight for a key at a time: two leaders
    that are in flight under the same key, neither of them forgotten, are
    the same call with the same record. *)
Theorem one_in_flight (ls : list label) (s : state) l1 l2 key c1 c2 r1 r2 :
  reachable ls s →
  in_flight s l1 key c1 → in_flight s l2 key c2 →
  heap s !! c1 = Some r1 → heap s !! c2 = Some r2 →
  forgotten r1 = false → forgotten r2 = false →
  l1 = l2 ∧ c1 = c2.
Proof.
  intros Hr Hf1 Hf2 Hc1 Hc2 Hg1 Hg2. apply inv_reachable in Hr as Hinv.
  assert (Hm : ∀ l c r, in_flight s l key c → heap s !! c = Some r →
             forgotten r = false → owner (gh s) !! c = Some l ∧ mapped s key c).
  { intros l c r Hf Hc Hg.
    assert (Ho : owner (gh s) !! c = Some l).
    { destruct Hf as [[ctx Hf]|Hf]; by apply (inv_thread _ _ Hinv) in Hf. }
    split; [done|].
    destruct (inv_owner _ _ Hinv _ _ Ho) as (r' & p & Hc' & Hp & Hi).
    rewrite Hc in Hc'. injection Hc' as <-.
    destruct Hf as [[ctx Hf]|Hf]; rewrite Hp in Hf; injection Hf as ->;
      simpl in Hi; unfold map_ok in Hi; rewrite Hg in Hi; tauto. }
  destruct (Hm _ _ _ Hf1 Hc1 Hg1) as [Ho1 Hm1].
  destruct (Hm _ _ _ Hf2 Hc2 Hg2) as [Ho2 Hm2].
  unfold mapped in *. assert (c1 = c2) as -> by congruence.
  split; [congruence|done].
Qed.




(** X5.  [Unwrap] on a panic that [Do] re-raised, to the leader or to a
    follower of its call, gives what the type assertion to [error] gives on
    the value [fn] panicked with: the original error, or nil. *)
Theorem Unwrap_reraised (ls : list label) (s : state)
    (as_error : P → option Err) l x t y pe :
  reachable ls s → logged s l (FnPanic x) →
  t = l ∨ (∃ c, joined (gh s) !! t = Some (l, c)) →
  threads s !! t = Some (Exited y) → raised y = Some pe →
  value pe = x ∧ Unwrap as_error pe = as_error x.
Proof.
  intros Hr Hlog Hwho Ht Hy. apply inv_reachable in Hr as Hinv.
  assert (Hnd : NoDup (fnlog (gh s)).*1) by by destruct Hinv.
  assert (Hv : value pe = x).
  { pose proof (inv_thread _ _ Hinv _ _ Ht) as Hti.
    destruct y as [| pe'| | |pe'| |]; simpl in Hy; try done;
      injection Hy as ->; simpl in Hti.
    - destruct Hti as (l' & c & r & Hj & Hc & Hd & Hpe).
      assert (l' = l) as ->.
      { destruct Hwho as [->|[c' Hj']]; [|congruence].
        by eapply follower_not_logged in Hlog. }
      destruct (follower_record _ _ _ _ _ _ Hinv Hj Hc Hd) as (o & Hlog' & Hst).
      assert (o = FnPanic x) as -> by eauto using logged_inj.
      destruct Hst as [stk Hst]. rewrite Hpe in Hst. by injection Hst as ->.
    - destruct Hti as [Hlog' _].
      assert (t = l) as ->.
      { destruct Hwho as [->|[c' Hj']]; [done|].
        by eapply follower_not_logged in Hlog'. }
      assert (FnPanic (value pe) = FnPanic x) as [= ->]
        by eauto using logged_inj. done. }
  split; [done|]. unfold Unwrap. rewrite Hv. by destruct (as_error x).
Qed.

Lemma made_idem (m : option (gmap K nat)) : made (made m) = made m.
Proof. by destruct m. Qed.

Lemma made_delete (m : option (gmap K nat)) key :
  map_delete (made m) key = made (map_delete m key).
Proof. destruct m as [m|]; simpl; [done|]. by rewrite delete_empty. Qed.

Lemma step_upgrade (l : label) (s : state) :
  New (pool (grp s)) = false →
  step l (upgrade s) = upgrade <$> step l s.
Proof.
  intros HNew.
  destruct l as [ctx key|key|t pk|t o stk|t|t|t|t|t|t|ctx e|i]; simpl.
  - done.
  - done.
  - unfold Do_lock. simpl.
    destruct (threads s !! t) as [[ctx key| | | | | | |]|]; try done.
    simpl. rewrite made_idem.
    destruct (map_index (made (calls (grp s))) key) as [c|].
    + destruct (heap s !! c) as [r|]; [|done]. simpl.
      unfold upgrade. simpl. by rewrite made_idem.
    + assert (∃ m0, made (calls (grp s)) = Some m0) as [m0 Hm0]
        by (destruct (calls (grp s)); simpl; eauto).
      rewrite Hm0. simpl. destruct pk as [i|]; simpl.
      * destruct (items (pool (grp s)) !! i) as [c|]; [|done].
        by destruct (heap s !! c) as [r|].
      * rewrite HNew. simpl.
        by destruct ((heap s ++ [new_call]) !! length (heap s)).
  - unfold doCall_fn. simpl. repeat case_match; by simplify_eq/=.
  - unfold doCall_deferred. simpl.
    destruct (threads s !! t) as [[| | |key c| | | |]|]; try done.
    destruct (heap s !! c) as [r|]; [|done].
    destruct (done r); simpl; [| |done];
      unfold upgrade; simpl; (destruct (forgotten r); [done|]);
      by rewrite made_delete.
  - unfold Do_recycle. simpl.
    destruct (threads s !! t) as [[| | | |c| | |]|]; try done.
    destruct (heap s !! c) as [r|]; [|done]. by destruct (recyclable r).
  - unfold Do_return. simpl. repeat case_match; by simplify_eq/=.
  - unfold Do_select_done. simpl. repeat case_match; by simplify_eq/=.
  - unfold Do_select_ctx. simpl. repeat case_match; by simplify_eq/=.
  - unfold Forget. simpl.
    destruct (threads s !! t) as [[| | | | | |key|]|]; try done.
    simpl. rewrite map_index_made. unfold upgrade. simpl.
    by rewrite made_delete.
  - unfold cancel. simpl. by destruct (ctxs s !! ctx).
  - unfold pool_drop. simpl. by destruct (items (pool (grp s)) !! i).
Qed.

(** X6.  A zero value of [Group] and a group made by [NewGroup()] cannot be
    told apart: under every schedule both take the same transitions, and
    the group made by [NewGroup()] is in the state of the zero value with
    the map made and [New] set. *)
Theorem zero_value_as_NewGroup (ls : list label) :
  run ls (init NewGroup) = upgrade <$> run ls (init zero_Group).
Proof.
  induction ls as [|l ls IH] using rev_ind; [done|].
  rewrite !run_snoc, IH.
  destruct (run ls (init zero_Group)) as [s|] eqn:Hs; [|done]. simpl.
  apply step_upgrade. by apply New_run in Hs.
Qed.


Lemma run_app (ls1 ls2 : list label) (s : state) :
  run (ls1 ++ ls2) s = run ls1 s ≫= run ls2.
Proof.
  induction ls2 as [|l ls2 IH] using rev_ind.
  - rewrite app_nil_r. by destruct (run ls1 s).
  - rewrite app_assoc, !run_snoc, IH.
    destruct (run ls1 s) as [s1|]; simpl; [|done]. by rewrite run_snoc.
Qed.

Lemma reachable_app (ls ls' : list label) (s s' : state) :
  reachable ls s → run ls' s = Some s' → reachable (ls ++ ls') s'.
Proof.
  intros [Hr|Hr] Hs; [left|right]; by rewrite run_app, Hr.
Qed.

(** What a follower joined stays recorded. *)
Lemma joined_step n (l : label) (s s' : state) t x :
  inv n s → step l s = Some s' → joined (gh s) !! t = Some x →
  joined (gh s') !! t = Some x.
Proof.
  intros Hinv Hs Hj.
  destruct l; simpl in Hs;
    try (unfold doCall_fn, doCall_deferred, Do_recycle, Do_return,
           Do_select_done, Do_select_ctx, Forget, cancel, pool_drop in Hs;
         repeat case_match; by simplify_eq/=).
  unfold Do_lock in Hs.
  destruct (threads s !! t0) as [[ctx key| | | | | | |]|] eqn:Ht; try done.
  simpl in Hs.
  assert (t ≠ t0).
  { intros ->. destruct x as [l c].
    destruct (inv_joined _ _ Hinv _ _ _ Hj) as (r & p & _ & Hp & Hf & _).
    rewrite Ht in Hp. by injection Hp as <-. }
  repeat case_match; simplify_eq/=; try done.
  unfold set_joined. case_match; simpl; [|done]. by rewrite lookup_insert_ne.
Qed.

Lemma joined_run (ls ls' : list label) (s s' : state) t x :
  reachable ls s → run ls' s = Some s' → joined (gh s) !! t = Some x →
  joined (gh s') !! t = Some x.
Proof.
  intros Hr. revert s'.
  induction ls' as [|l ls' IH] using rev_ind; intros s' Hs Hj.
  - by injection Hs as <-.
  - rewrite run_snoc in Hs. destruct (run ls' s) as [s1|] eqn:Hs1; [|done].
    simpl in Hs. eapply joined_step; [|exact Hs|by apply IH].
    apply inv_reachable. by eapply reachable_app.
Qed.

(** X7.  The record a follower joined is never recycled, also when the
    follower, or every follower, was cancelled: in this and in every later
    state it is not in the pool and still belongs to the call the follower
    joined, with its channel. *)
Theorem joined_record_kept (ls : list label) (s : state) t l c :
  reachable ls s → joined (gh s) !! t = Some (l, c) →
  ∀ ls' s', run ls' s = Some s' →
    ¬ pooled s' c ∧ owner (gh s') !! c = Some l
    ∧ ∃ r, heap s' !! c = Some r ∧ done r ≠ ChanNil.
Proof.
  intros Hr Hj ls' s' Hs.
  pose proof (joined_run _ _ _ _ _ _ Hr Hs Hj) as Hj'.
  pose proof (reachable_app _ _ _ _ Hr Hs) as Hr'.
  apply inv_reachable in Hr' as Hinv.
  destruct (inv_joined _ _ Hinv _ _ _ Hj') as (r & p & Hc & _ & _ & Ho & Hd & _).
  split; [|split; [done|eauto]].
  intros Hp. destruct (inv_pool _ _ Hinv _ Hp) as (r' & Hc' & Hcl).
  rewrite Hc in Hc'. injection Hc' as <-.
  by destruct Hcl as (_ & _ & _ & ? & _).
Qed.

(** A change of one record that makes neither [dups] non-zero nor [done]
    non-nil keeps [witnessed]. *)
Lemma witnessed_update (s s' : state) c0 r0 r0' :
  witnessed s → heap s !! c0 = Some r0 →
  heap s' = <[c0 := r0']> (heap s) → gh s' = gh s →
  (dups r0' ≠ 0 ∨ done r0' ≠ ChanNil → dups r0 ≠ 0 ∨ done r0 ≠ ChanNil) →
  witnessed s'.
Proof.
  intros Hw H0' Hh Hg Himp c l r Ho Hc Hne. rewrite Hg in *. rewrite Hh in Hc.
  destruct (decide (c = c0)) as [->|Hn].
  - rewrite list_lookup_insert_eq in Hc by eauto using lookup_lt_Some.
    injection Hc as <-. eauto.
  - rewrite list_lookup_insert_ne in Hc by done. eauto.
Qed.

Lemma witnessed_step n (l : label) (s s' : state) :
  inv n s → witnessed s → step l s = Some s' → witnessed s'.
Proof.
  intros Hinv Hw Hs.
  destruct l as [ctx key|key|t pk|t o stk|t|t|t|t|t|t|ctx e|i]; simpl in Hs.
  - by injection Hs as <-.
  - by injection Hs as <-.
  - unfold Do_lock in Hs.
    destruct (threads s !! t) as [[ctx key| | | | | | |]|] eqn:Ht; try done.
    simpl in Hs. rewrite map_index_made in Hs.
    assert (Hjt : joined (gh s) !! t = None).
    { destruct (joined (gh s) !! t) as [[l c]|] eqn:Hj; [|done].
      destruct (inv_joined _ _ Hinv _ _ _ Hj) as (r1 & p & _ & Hp & Hf & _).
      rewrite Ht in Hp. by injection Hp as <-. }
    destruct (map_index (calls (grp s)) key) as [c0|] eqn:Hk.
    + destruct (heap s !! c0) as [r0|] eqn:Hr0; [|done]. injection Hs as <-.
      destruct (inv_map _ _ Hinv _ _ Hk) as (l0 & _ & Ho0 & _).
      intros c l r Ho Hc Hne. simpl in Ho, Hc. unfold set_joined in *.
      rewrite Ho0 in *. simpl in *.
      destruct (decide (c = c0)) as [->|Hn].
      * exists t. rewrite lookup_insert_eq. congruence.
      * rewrite list_lookup_insert_ne in Hc by done.
        destruct (Hw _ _ _ Ho Hc Hne) as [t' Hj'].
        exists t'. rewrite lookup_insert_ne; [done|]. congruence.
    + assert (∃ m0, made (calls (grp s)) = Some m0) as [m0 Hm0]
        by (destruct (calls (grp s)); simpl; eauto).
      rewrite Hm0 in Hs. simpl in Hs.
      assert (Hlead : ∀ c0 h2 p' r0, h2 !! c0 = Some r0 →
        dups r0 = 0 → done r0 = ChanNil →
        (∀ c r, c ≠ c0 → h2 !! c = Some r → heap s !! c = Some r) →
        witnessed (set_pc t (LeaderCall ctx key c0)
          (set_calls (Some (<[key := c0]> m0))
            (set_gh (set_owner c0 t (gh s))
              (set_heap (<[c0 := reset r0]> h2) (set_pool p' s)))))).
      { intros c0 h2 p' r0 Hr0 Hdu Hdn Hext c l r Ho Hc Hne. simpl in *.
        destruct (decide (c = c0)) as [->|Hn].
        - rewrite list_lookup_insert_eq in Hc by eauto using lookup_lt_Some.
          injection Hc as <-. simpl in Hne. by destruct Hne.
        - rewrite list_lookup_insert_ne in Hc by done.
          rewrite lookup_insert_ne in Ho by done. eauto. }
      destruct pk as [i|]; simpl in Hs.
      * destruct (items (pool (grp s)) !! i) as [c0|] eqn:Hi; [|done].
        assert (Hpl : pooled s c0) by (apply list_elem_of_lookup; eauto).
        destruct (inv_pool _ _ Hinv _ Hpl) as (r0 & Hr0 & _ & _ & _ & Hdn & Hdu).
        rewrite Hr0 in Hs. injection Hs as <-. by eapply Hlead.
      * assert (Hfresh : ∀ p', witnessed
          (set_pc t (LeaderCall ctx key (length (heap s)))
            (set_calls (Some (<[key := length (heap s)]> m0))
              (set_gh (set_owner (length (heap s)) t (gh s))
                (set_heap (<[length (heap s) := reset new_call]>
                             (heap s ++ [new_call])) (set_pool p' s)))))).
        { intros p'. eapply Hlead; try done.
          - by rewrite lookup_app_r, Nat.sub_diag.
          - intros c r Hn Hc. apply lookup_snoc_Some in Hc as [[_ ?]|[? _]]; done. }
        destruct (New (pool (grp s))); simpl in Hs;
          rewrite lookup_app_r, Nat.sub_diag in Hs by done; simpl in Hs;
          injection Hs as <-; apply Hfresh.
  - unfold doCall_fn in Hs.
    destruct (threads s !! t) as [[| |ctx key c0| | | | |]|]; try done.
    destruct (heap s !! c0) as [r0|] eqn:Hr0; [|done]. injection Hs as <-.
    intros c l r Ho Hc Hne. simpl in *.
    destruct (decide (c = c0)) as [->|Hn].
    + rewrite list_lookup_insert_eq in Hc by eauto using lookup_lt_Some.
      injection Hc as <-. eapply Hw; eauto. by destruct o.
    + rewrite list_lookup_insert_ne in Hc by done. eauto.
  - unfold doCall_deferred in Hs.
    destruct (threads s !! t) as [[| | |key c0| | | |]|]; try done.
    destruct (heap s !! c0) as [r0|] eqn:Hr0; [|done].
    destruct (match done r0 with ChanNil => Some ChanNil | d => chan_close d end)
      as [d|] eqn:Hcl; injection Hs as <-; [|done].
    eapply (witnessed_update s _ c0 r0 _ Hw Hr0); [done|done|]. simpl.
    destruct (done r0); simpl in Hcl; simplify_eq; intuition congruence.
  - unfold Do_recycle in Hs.
    destruct (threads s !! t) as [[| | | |c0| | |]|]; try done.
    destruct (heap s !! c0) as [r0|] eqn:Hr0; [|done]. injection Hs as <-.
    destruct (recyclable r0); [|done].
    eapply (witnessed_update s _ c0 r0 _ Hw Hr0); [done|done|]. simpl. tauto.
  - unfold Do_return in Hs. repeat case_match; by simplify_eq.
  - unfold Do_select_done in Hs. repeat case_match; by simplify_eq.
  - unfold Do_select_ctx in Hs. repeat case_match; by simplify_eq.
  - unfold Forget in Hs.
    destruct (threads s !! t) as [[| | | | | |key|]|]; try done.
    injection Hs as <-.
    destruct (map_index (calls (grp s)) key) as [c0|]; [|done].
    destruct (heap s !! c0) as [r0|] eqn:Hr0; [|done].
    eapply (witnessed_update s _ c0 r0 _ Hw Hr0); [done|done|]. simpl. tauto.
  - unfold cancel in Hs. repeat case_match; by simplify_eq.
  - unfold pool_drop in Hs. repeat case_match; by simplify_eq.
Qed.

Lemma witnessed_reachable (ls : list label) (s : state) :
  reachable ls s → witnessed s.
Proof.
  revert s. induction ls as [|l ls IH] using rev_ind; intros s Hr.
  - intros c l r Ho. destruct Hr as [Hr|Hr]; injection Hr as <-;
      simpl in Ho; by rewrite lookup_empty in Ho.
  - assert (∃ s1, reachable ls s1 ∧ step l s1 = Some s) as (s1 & Hr1 & Hs).
    { destruct Hr as [Hr|Hr]; rewrite run_snoc in Hr;
        [destruct (run ls (init NewGroup)) as [s1|] eqn:E
        |destruct (run ls (init zero_Group)) as [s1|] eqn:E]; try done;
        exists s1; (split; [|done]); [by left|by right]. }
    eapply witnessed_step; [by apply inv_reachable|by apply IH|done].
Qed.

(** X8.  [shared = true] is justified as long as the record was not handed
    out again: when a leader has returned [shared = true] and its record
    still belongs to its call, some follower joined that call. *)
Theorem shared_means_joined (ls : list label) (s : state) l v e c :
  reachable ls s →
  threads s !! l = Some (Exited (ExitLeader v true e)) →
  owner (gh s) !! c = Some l →
  ∃ t, joined (gh s) !! t = Some (l, c).
Proof.
  intros Hr Hl Ho. apply inv_reachable in Hr as Hinv.
  apply witnessed_reachable in Hr as Hw.
  destruct (inv_owner _ _ Hinv _ _ Ho) as (r & p & Hc & Hp & Hi).
  rewrite Hl in Hp. injection Hp as <-. simpl in Hi. destruct Hi as [_ Hsh].
  symmetry in Hsh. apply Z.ltb_lt in Hsh.
  eapply Hw; eauto. left. lia.
Qed.








Lemma reset_clean (r : call) : clean r → reset r = new_call.
Proof.
  intros (Hv & He & Hpe & Hd & Hdu). destruct r. simpl in *. by subst.
Qed.

(** The state after the leader's branch of [Do]'s critical section, for a
    record [c] of the heap [h] and the pool [p']. *)
Lemma Do_lock_leads (s s' : state) t ctx key pk :
  threads s !! t = Some (DoStart ctx key) →
  map_index (calls (grp s)) key = None →
  Do_lock t pk s = Some s' →
  ∃ c h p' r m0,
    made (calls (grp s)) = Some m0 ∧ h !! c = Some r
    ∧ s' = set_pc t (LeaderCall ctx key c)
             (set_calls (Some (<[key := c]> m0))
                (set_gh (set_owner c t (gh s))
                   (set_heap (<[c := reset r]> h) (set_pool p' s))))
    ∧ ((∃ i, pk = PickItem i ∧ items (pool (grp s)) !! i = Some c ∧ h = heap s
             ∧ items p' = delete i (items (pool (grp s))))
       ∨ (pk = PickNothing ∧ c = length (heap s) ∧ r = new_call
          ∧ h = heap s ++ [new_call] ∧ items p' = items (pool (grp s)))).
Proof.
  intros Ht Hk Hs. unfold Do_lock in Hs. rewrite Ht in Hs. simpl in Hs.
  rewrite map_index_made, Hk in Hs.
  assert (∃ m0, made (calls (grp s)) = Some m0) as [m0 Hm0]
    by (destruct (calls (grp s)); simpl; eauto).
  rewrite Hm0 in Hs. simpl in Hs. destruct pk as [i|]; simpl in Hs.
  - destruct (items (pool (grp s)) !! i) as [c|] eqn:Hi; [|done].
    destruct (heap s !! c) as [r|] eqn:Hc; [|done]. injection Hs as <-.
    eexists c, (heap s), _, r, m0. split; [done|]. split; [done|].
    split; [done|]. left. eauto.
  - assert (Hnew : (heap s ++ [new_call]) !! length (heap s) = Some new_call)
      by (by rewrite lookup_app_r, Nat.sub_diag).
    destruct (New (pool (grp s))); simpl in Hs; rewrite Hnew in Hs;
      injection Hs as <-;
      eexists (length (heap s)), (heap s ++ [new_call]), _, new_call, m0;
      (split; [done|]); (split; [done|]); (split; [done|]); right; done.
Qed.




(** X13.  A call of [Do] that nobody joins and nobody forgets: run without
    interruption after its critical section, the leader returns [fn]'s
    results with [shared = false], the key is free again, and the record is
    back in the pool with the zero value in every field.  When the pool
    handed the record out, nothing was allocated: the heap differs from the
    one before the call in that record only. *)
Theorem solo_call (ls : list label) (s s1 : state) t ctx key pk v e stk :
  reachable ls s → threads s !! t = Some (DoStart ctx key) →
  map_index (calls (grp s)) key = None →
  step (Lock t pk) s = Some s1 →
  ∃ s' c,
    run [Fn t (FnReturn v e) stk; Deferred t; Recycle t; Ret t] s1 = Some s'
    ∧ threads s' !! t = Some (Exited (ExitLeader v false e))
    ∧ map_index (calls (grp s')) key = None
    ∧ heap s' !! c = Some new_call
    ∧ items (pool (grp s'))
      = c :: match pk with
             | PickItem i => delete i (items (pool (grp s)))
             | PickNothing => items (pool (grp s))
             end
    ∧ (∀ i, pk = PickItem i →
            items (pool (grp s)) !! i = Some c
            ∧ heap s' = <[c := new_call]> (heap s)).
Proof.
  intros Hr Ht Hk Hs. apply inv_reachable in Hr as Hinv. simpl in Hs.
  destruct (Do_lock_leads _ _ _ _ _ _ Ht Hk Hs)
    as (c & h & p' & r & m0 & Hm0 & Hc & -> & Hcase).
  assert (Hlt : (t < length (threads s))%nat) by eauto using lookup_lt_Some.
  assert (Hcl : clean r).
  { destruct Hcase as [(i & _ & Hi & -> & _)|(_ & _ & -> & _)]; [|done].
    assert (Hpl : pooled s c) by (apply list_elem_of_lookup; eauto).
    destruct (inv_pool _ _ Hinv _ Hpl) as (r' & Hc' & Hcl). congruence. }
  assert (Hlc : (c < length h)%nat) by eauto using lookup_lt_Some.
  rewrite (reset_clean _ Hcl).
  eexists _, c. split.
  { unfold run. simpl. unfold doCall_fn. simpl.
    rewrite list_lookup_insert_eq by done.
    rewrite list_lookup_insert_eq by done. simpl.
    unfold doCall_deferred. simpl.
    rewrite list_lookup_insert_eq by (by rewrite length_insert).
    rewrite list_lookup_insert_eq by (by rewrite !length_insert). simpl.
    unfold Do_recycle. simpl.
    rewrite list_lookup_insert_eq by (by rewrite !length_insert).
    rewrite list_lookup_insert_eq by (by rewrite !length_insert). simpl.
    unfold Do_return. simpl.
    rewrite list_lookup_insert_eq by (by rewrite !length_insert).
    rewrite list_lookup_insert_eq by (by rewrite !length_insert). simpl.
    reflexivity. }
  simpl. split.
  { by rewrite list_lookup_insert_eq by (by rewrite !length_insert). }
  split; [by rewrite lookup_delete_eq|].
  split.
  { by rewrite list_lookup_insert_eq by (by rewrite !length_insert). }
  split.
  { destruct Hcase as [(i & -> & _ & _ & ->)|(-> & _ & _ & _ & ->)]; done. }
  intros i ->. destruct Hcase as [(i' & [= <-] & Hi & -> & _)|(? & _)]; [|done].
  split; [done|]. by rewrite !list_insert_insert_eq.
Qed.

End singleflight.

(** * Concrete schedules

    Keys, values, errors and panic values are strings. *)

Local Open Scope string_scope.

Local Abbreviation ok := (FnReturn (V:=string) (Err:=string) (P:=string) "V" None).
Local Abbreviation boom := (FnPanic (V:=string) (Err:=string) (P:=string) "boom").
Local Abbreviation new_group := (NewGroup (K:=string)).
Local Abbreviation zero_group := (zero_Group (K:=string)).

(** C1 as stated fails: after [Forget], a call that arrives while the first
    leader's [fn] is still running does not join it but leads a second
    execution for the same key, and invokes [fn] itself. *)
Lemma C1_counterexample :
  ¬ (∀ ls (s s' : state (K:=string) (V:=string) (Err:=string) (P:=string))
       l key c ctx' t ctx pk,
       reachable ls s →
       threads s !! l = Some (LeaderCall ctx' key c) →
       threads s !! t = Some (DoStart ctx key) →
       step (Lock t pk) s = Some s' →
       threads s' !! t = Some (FollowerSelect ctx c)
       ∧ ∀ ms s'', run ms s' = Some s'' → invocations s'' t = 0%nat).
Proof.
  intros Hall.
  destruct (Hall (forgotten_arrival "K") (after new_group (forgotten_arrival "K"))
              (after new_group (forgotten_arrival "K" ++ [Lock 2 PickNothing]))
              0%nat "K" 0%nat 0%nat 2%nat 0%nat PickNothing) as [_ Hnone].
  - left. vm_compute. reflexivity.
  - vm_compute. reflexivity.
  - vm_compute. reflexivity.
  - vm_compute. reflexivity.
  - specialize (Hnone [Fn 2 ok []]
      (after new_group (forgotten_arrival "K" ++ [Lock 2 PickNothing; Fn 2 ok []]))).
    assert (Hone : invocations (after new_group
              (forgotten_arrival "K" ++ [Lock 2 PickNothing; Fn 2 ok []])) 2 = 1%nat)
      by (vm_compute; reflexivity).
    rewrite Hnone in Hone; [discriminate Hone|]. vm_compute. reflexivity.
Qed.

(** The witness of C1: a leader and one follower; [fn] ran once, by the
    leader, and the leader reports [shared = true]. *)
Lemma C1_witness :
  reachable (herd "K" ok []) (after new_group (herd "K" ok []))
  ∧ Z.of_nat (length (herd "K" ok [])) < 2 ^ 63
  ∧ invocations (after new_group (herd "K" ok [])) 0 = 1%nat
  ∧ invocations (after new_group (herd "K" ok [])) 1 = 0%nat
  ∧ (∀ v sh e,
       threads (after new_group (herd "K" ok [])) !! 0%nat
       = Some (Exited (ExitLeader v sh e)) → sh = true).
Proof.
  assert (Hr : reachable (herd "K" ok []) (after new_group (herd "K" ok [])))
    by (left; vm_compute; reflexivity).
  assert (Hn : Z.of_nat (length (herd "K" ok [])) < 2 ^ 63)
    by (vm_compute; reflexivity).
  destruct (C1_single_execution _ _ Hr Hn) as (_ & _ & Hex & Hfol).
  assert (Hj : joined (gh (after new_group (herd "K" ok []))) !! 1%nat
               = Some (0%nat, 0%nat)) by (vm_compute; reflexivity).
  destruct (Hfol _ _ _ Hj) as (Hnone & _ & Hsh).
  split; [exact Hr|]. split; [exact Hn|]. split; [|split; [exact Hnone|exact Hsh]].
  apply (Hex 0%nat (ExitLeader "V" true None)); [vm_compute; reflexivity|].
  left. by exists "V", true, None.
Defined.


(** The witness of C3: [fn] panics with ["boom"]; leader and follower
    re-raise one and the same descriptor. *)
Lemma C3_witness :
  reachable (herd "K" boom []) (after new_group (herd "K" boom []))
  ∧ logged (after new_group (herd "K" boom [])) 0 boom
  ∧ ∃ c r stk,
      heap (after new_group (herd "K" boom [])) !! c = Some r
      ∧ panicErr r = Some (PanicError "boom" stk)
      ∧ ¬ pooled (after new_group (herd "K" boom [])) c
      ∧ (∀ y, threads (after new_group (herd "K" boom [])) !! 0%nat
              = Some (Exited y) →
           y = ExitLeaderPanic (PanicError "boom" stk)).
Proof.
  assert (Hr : reachable (herd "K" boom []) (after new_group (herd "K" boom [])))
    by (left; vm_compute; reflexivity).
  assert (Hl : logged (after new_group (herd "K" boom [])) 0 boom)
    by (vm_compute; constructor).
  destruct (C3_panic_propagation _ _ _ _ Hr Hl)
    as (_ & _ & c & r & stk & _ & Hc & Hpe & Hnp & Hlead & _).
  split; [exact Hr|]. split; [exact Hl|]. exists c, r, stk.
  split; [exact Hc|]. split; [exact Hpe|]. split; [exact Hnp|].
  intros y Hy. by destruct (Hlead y Hy).
Defined.

(** The witness of C4: the follower's context is cancelled while [fn] runs. *)
Lemma C4_witness :
  threads (after new_group (impatient (V:=string) (P:=string) "K" "canceled"))
    !! 1%nat = Some (FollowerSelect 1 0)
  ∧ step (SelectCtx 1)
      (after new_group (impatient (V:=string) (P:=string) "K" "canceled"))
    = Some (set_pc 1 (Exited (ExitCancelled "canceled"))
              (after new_group (impatient (V:=string) (P:=string) "K" "canceled")))
  ∧ returned (V:=string) (P:=string) (ExitCancelled "canceled")
    = Some (inhabitant, true, Some "canceled").
Proof.
  assert (Ht : threads (after new_group
                 (impatient (V:=string) (P:=string) "K" "canceled")) !! 1%nat
               = Some (FollowerSelect 1 0)) by (vm_compute; reflexivity).
  destruct (C4_follower_cancel
              (after new_group (impatient (V:=string) (P:=string) "K" "canceled"))
              1 1 0 (Call inhabitant None None ChanOpen 1 false) "canceled")
    as (Hstep & Hret & _).
  - exact Ht.
  - vm_compute. reflexivity.
  - simpl. discriminate.
  - vm_compute. reflexivity.
  - split; [exact Ht|]. split; [exact Hstep|exact Hret].
Defined.

(** The witness of C5: a solitary leader's record goes back to the pool. *)
Lemma C5_witness :
  reachable (solo "K" ok) (after new_group (solo "K" ok))
  ∧ threads (after new_group (solo "K" ok)) !! 0%nat = Some (LeaderAfter 0)
  ∧ ∃ s', step (Recycle 0) (after new_group (solo "K" ok)) = Some s'
          ∧ pooled s' 0.
Proof.
  assert (Hr : reachable (solo "K" ok) (after new_group (solo "K" ok)))
    by (left; vm_compute; reflexivity).
  assert (Ht : threads (after new_group (solo "K" ok)) !! 0%nat
               = Some (LeaderAfter 0)) by (vm_compute; reflexivity).
  assert (Hc : heap (after new_group (solo "K" ok)) !! 0%nat
               = Some (Call "V" None None ChanNil 0 false))
    by (vm_compute; reflexivity).
  destruct (C5_recycle _ _ _ _ _ Hr Ht Hc) as (s' & Hs & Hiff & _).
  split; [exact Hr|]. split; [exact Ht|]. exists s'. split; [exact Hs|].
  apply Hiff. simpl. by repeat split.
Defined.

(** C6 as stated fails: after [Forget] a solitary leader's record is in the
    pool with [forgotten] set, and [Get] hands it out. *)
Lemma C6_counterexample :
  ¬ (∀ ls (s : state (K:=string) (V:=string) (Err:=string) (P:=string)) pk c p' h' r,
       reachable ls s →
       pool_Get pk (pool (grp s)) (heap s) = Some (Some c, p', h') →
       h' !! c = Some r →
       done r = ChanNil ∧ dups r = 0 ∧ forgotten r = false
       ∧ val r = inhabitant ∧ err r = None ∧ panicErr r = None).
Proof.
  intros Hall.
  destruct (Hall (forgotten_solo "K" ok) (after new_group (forgotten_solo "K" ok))
              (PickItem 0) 0%nat (MkPool [] true)
              [Call inhabitant None None ChanNil 0 true]
              (Call inhabitant None None ChanNil 0 true))
    as (_ & _ & Hf & _).
  - left. vm_compute. reflexivity.
  - vm_compute. reflexivity.
  - reflexivity.
  - discriminate Hf.
Qed.

(** The witness of C6 as amended, on the same schedule. *)
Lemma C6_witness :
  reachable (forgotten_solo "K" ok) (after new_group (forgotten_solo "K" ok))
  ∧ ∃ r, [Call (Err:=string) (P:=string) (inhabitant : string) None None
               ChanNil 0 true] !! 0%nat = Some r
         ∧ forgotten r = true ∧ done r = ChanNil ∧ dups r = 0
         ∧ reset r = new_call.
Proof.
  assert (Hr : reachable (forgotten_solo "K" ok)
                 (after new_group (forgotten_solo "K" ok)))
    by (left; vm_compute; reflexivity).
  destruct (C6_pool_record (forgotten_solo "K" ok)
              (after new_group (forgotten_solo "K" ok))
              (PickItem 0) 0%nat (MkPool [] true)
              [Call inhabitant None None ChanNil 0 true] Hr)
    as (r & Hc & Hd & Hdu & _ & _ & _ & Hre).
  - vm_compute. reflexivity.
  - split; [exact Hr|]. exists r. split; [exact Hc|].
    split; [by injection Hc as <-|]. split; [exact Hd|]. split; [exact Hdu|exact Hre].
Defined.

(** The witness of C7: the first leader was forgotten and a second leader
    holds the key; the first leader's cleanup leaves the second's entry. *)
Lemma C7_witness :
  reachable (forgotten_then_new "K" ok)
    (after new_group (forgotten_then_new "K" ok))
  ∧ threads (after new_group (forgotten_then_new "K" ok)) !! 0%nat
    = Some (LeaderDefer "K" 0)
  ∧ mapped (after new_group (forgotten_then_new "K" ok)) "K" 1
  ∧ ∃ s', step (Deferred 0) (after new_group (forgotten_then_new "K" ok)) = Some s'
          ∧ mapped s' "K" 1
          ∧ calls (grp s') = calls (grp (after new_group (forgotten_then_new "K" ok))).
Proof.
  assert (Hr : reachable (forgotten_then_new "K" ok)
                 (after new_group (forgotten_then_new "K" ok)))
    by (left; vm_compute; reflexivity).
  assert (Ht : threads (after new_group (forgotten_then_new "K" ok)) !! 0%nat
               = Some (LeaderDefer "K" 0)) by (vm_compute; reflexivity).
  assert (Hm : mapped (after new_group (forgotten_then_new "K" ok)) "K" 1)
    by (vm_compute; reflexivity).
  destruct (C7_cleanup_own_entry _ _ Hr) as [_ Hclean].
  destruct (Hclean _ _ _ Ht) as (s' & r & Hs & Hc & _ & Hiff & Hsame).
  split; [exact Hr|]. split; [exact Ht|]. split; [exact Hm|].
  exists s'. split; [exact Hs|]. split.
  - apply Hiff. split; [exact Hm|]. discriminate.
  - apply Hsame.
    assert (Hc' : heap (after new_group (forgotten_then_new "K" ok)) !! 0%nat
                  = Some (Call "V" None None ChanNil 0 true))
      by (vm_compute; reflexivity).
    rewrite Hc' in Hc. by injection Hc as <-.
Defined.

(** C8, evaluated on the schedule [stale].  The first leader ran [fn] alone
    and no follower ever joined its call, yet [Do] returns [shared = true]
    for it: line 122 reads [c.dups] after the record went through the pool
    (line 115) to a second leader, whom a follower joined. *)
Theorem C8_stale_dups_read :
  ∃ s, run (stale (Err:=string) (P:=string) "K1" "K2" "V") (init new_group) = Some s
       ∧ threads s !! 0%nat = Some (Exited (ExitLeader "V" true None))
       ∧ joined (gh s) = {[ 2%nat := (1%nat, 0%nat) ]}
       ∧ fnlog (gh s) = [(0%nat, FnReturn "V" None)].
Proof.
  eexists. split; [vm_compute; reflexivity|].
  split; [vm_compute; reflexivity|]. split; vm_compute; reflexivity.
Qed.

(** The witness of C9: [Forget] while the leader runs [fn]. *)
Lemma C9_witness :
  reachable (forgetting (V:=string) (Err:=string) (P:=string) "K")
    (after new_group (forgetting "K"))
  ∧ threads (after new_group
               (forgetting (V:=string) (Err:=string) (P:=string) "K")) !! 1%nat
    = Some (ForgetStart "K")
  ∧ ∃ s', step (DoForget 1)
            (after new_group (forgetting (V:=string) (Err:=string) (P:=string) "K"))
          = Some s'
          ∧ map_index (calls (grp s')) "K" = None
          ∧ ∃ r, heap s' !! 0%nat = Some r ∧ forgotten r = true.
Proof.
  assert (Hr : reachable (forgetting (V:=string) (Err:=string) (P:=string) "K")
                 (after new_group (forgetting "K")))
    by (left; vm_compute; reflexivity).
  assert (Ht : threads (after new_group
                 (forgetting (V:=string) (Err:=string) (P:=string) "K")) !! 1%nat
               = Some (ForgetStart "K")) by (vm_compute; reflexivity).
  destruct (C9_Forget _ _ _ _ Hr Ht) as (s' & Hs & _ & _ & _ & Hmap & Hheap).
  split; [exact Hr|]. split; [exact Ht|]. exists s'. split; [exact Hs|]. split.
  - rewrite Hmap. by rewrite decide_True.
  - assert (Hk : map_index (calls (grp (after new_group
                   (forgetting (V:=string) (Err:=string) (P:=string) "K")))) "K"
                 = Some 0%nat) by (vm_compute; reflexivity).
    rewrite Hk in Hheap. destruct Hheap as (r & Hc & ->).
    exists (Call (val r) (err r) (panicErr r) (done r) (dups r) true).
    split; [|reflexivity].
    apply list_lookup_insert_eq. by eapply lookup_lt_Some.
Defined.

(** The witness of C10: the first [Do] and a [Forget] on a zero value. *)
Lemma C10_witness :
  run (first_use (V:=string) (Err:=string) (P:=string) "K") (init zero_group)
  = Some (after zero_group (first_use "K"))
  ∧ calls (grp (after zero_group
                  (first_use (V:=string) (Err:=string) (P:=string) "K"))) = None
  ∧ (∃ s', step (Lock 0 PickNothing)
             (after zero_group (first_use (V:=string) (Err:=string) (P:=string) "K"))
           = Some s'
           ∧ is_Some (calls (grp s'))
           ∧ threads s' !! 0%nat = Some (LeaderCall 0 "K" 0))
  ∧ (∃ s', step (DoForget 1)
             (after zero_group (first_use (V:=string) (Err:=string) (P:=string) "K"))
           = Some s'
           ∧ grp s' = zero_group).
Proof.
  assert (Hr : run (first_use (V:=string) (Err:=string) (P:=string) "K")
                 (init zero_group)
               = Some (after zero_group (first_use "K")))
    by (vm_compute; reflexivity).
  destruct (C10_zero_value _ _ Hr) as (_ & _ & HDo & HForget).
  split; [exact Hr|]. split; [reflexivity|]. split.
  - destruct (HDo 0%nat 0%nat "K") as (s' & Hs & Hmade & _ & Hlead);
      [vm_compute; reflexivity|].
    exists s'. split; [exact Hs|]. split; [exact Hmade|].
    destruct Hlead as (_ & Hpc & _); [vm_compute; reflexivity|]. exact Hpc.
  - destruct (HForget 1%nat "K") as (s' & Hs & _ & Hnop);
      [vm_compute; reflexivity|].
    exists s'. split; [exact Hs|]. destruct Hnop as [Hg _]; [reflexivity|].
    exact Hg.
Defined.

(** * Witnesses of the further properties *)

Local Abbreviation leading :=
  (forgetting (V:=string) (Err:=string) (P:=string) "K").
Local Abbreviation returned_fn := [GoDo 0 "K"; Lock 0 PickNothing; Fn 0 ok []].
Local Abbreviation joined_fn :=
  [GoDo 0 "K"; Lock 0 PickNothing; GoDo 0 "K"; Lock 1 PickNothing; Fn 0 ok []].
Local Abbreviation forgetters :=
  ([GoForget "K"; GoForget "K"]
   : list (label (K:=string) (V:=string) (Err:=string) (P:=string))).
Local Abbreviation second_call :=
  (solo "K" ok ++ [Recycle 0; Ret 0; GoDo 0 "K2"])%list.

(** A leader and a follower that both returned: no thread faulted. *)
Lemma Do_never_faults_witness :
  reachable (herd "K" ok []) (after new_group (herd "K" ok []))
  ∧ ∀ t, threads (after new_group (herd "K" ok [])) !! t ≠ Some (Exited ExitFault).
Proof.
  assert (Hr : reachable (herd "K" ok []) (after new_group (herd "K" ok [])))
    by (left; vm_compute; reflexivity).
  destruct (Do_never_faults _ _ Hr) as (Hf & _ & _).
  split; [exact Hr|exact Hf].
Defined.

(** One leader runs [fn] for the key. *)
Lemma one_in_flight_witness :
  reachable leading (after new_group leading)
  ∧ in_flight (after new_group leading) 0 "K" 0
  ∧ heap (after new_group leading) !! 0%nat = Some new_call
  ∧ 0%nat = 0%nat ∧ 0%nat = 0%nat.
Proof.
  assert (Hr : reachable leading (after new_group leading))
    by (left; vm_compute; reflexivity).
  assert (Hf : in_flight (after new_group leading) 0 "K" 0)
    by (left; exists 0%nat; vm_compute; reflexivity).
  assert (Hc : heap (after new_group leading) !! 0%nat = Some new_call)
    by (vm_compute; reflexivity).
  split; [exact Hr|]. split; [exact Hf|]. split; [exact Hc|].
  exact (one_in_flight _ _ _ _ _ _ _ _ _ Hr Hf Hf Hc Hc eq_refl eq_refl).
Defined.



(** [fn] panicked with an error value; the follower's descriptor unwraps
    to it. *)
Lemma Unwrap_reraised_witness :
  reachable (herd "K" boom []) (after new_group (herd "K" boom []))
  ∧ logged (after new_group (herd "K" boom [])) 0 boom
  ∧ threads (after new_group (herd "K" boom [])) !! 1%nat
    = Some (Exited (ExitFollowerPanic (PanicError "boom" [])))
  ∧ Unwrap (Err:=string) Some (PanicError "boom" []) = Some "boom".
Proof.
  assert (Hr : reachable (herd "K" boom []) (after new_group (herd "K" boom [])))
    by (left; vm_compute; reflexivity).
  assert (Hl : logged (after new_group (herd "K" boom [])) 0 boom)
    by (vm_compute; constructor).
  assert (Ht : threads (after new_group (herd "K" boom [])) !! 1%nat
               = Some (Exited (ExitFollowerPanic (PanicError "boom" []))))
    by (vm_compute; reflexivity).
  destruct (Unwrap_reraised _ _ Some 0%nat "boom" 1%nat
              (ExitFollowerPanic (PanicError "boom" [])) (PanicError "boom" [])
              Hr Hl) as [_ Hu].
  - right. exists 0%nat. vm_compute. reflexivity.
  - exact Ht.
  - reflexivity.
  - split; [exact Hr|]. split; [exact Hl|]. split; [exact Ht|exact Hu].
Defined.

(** The follower joined while [fn] ran; when both have returned its record
    is still not in the pool. *)
Lemma joined_record_kept_witness :
  reachable joined_fn (after new_group joined_fn)
  ∧ joined (gh (after new_group joined_fn)) !! 1%nat = Some (0%nat, 0%nat)
  ∧ run [Deferred 0; SelectDone 1; Recycle 0; Ret 0] (after new_group joined_fn)
    = Some (after new_group (herd "K" ok []))
  ∧ ¬ pooled (after new_group (herd "K" ok [])) 0.
Proof.
  assert (Hr : reachable joined_fn (after new_group joined_fn))
    by (left; vm_compute; reflexivity).
  assert (Hj : joined (gh (after new_group joined_fn)) !! 1%nat
               = Some (0%nat, 0%nat)) by (vm_compute; reflexivity).
  assert (Hs : run [Deferred 0; SelectDone 1; Recycle 0; Ret 0]
                 (after new_group joined_fn)
               = Some (after new_group (herd "K" ok [])))
    by (vm_compute; reflexivity).
  destruct (joined_record_kept _ _ _ _ _ Hr Hj _ _ Hs) as [Hnp _].
  split; [exact Hr|]. split; [exact Hj|]. split; [exact Hs|exact Hnp].
Defined.

(** The leader returned [shared = true]; a follower had joined its call. *)
Lemma shared_means_joined_witness :
  reachable (herd "K" ok []) (after new_group (herd "K" ok []))
  ∧ threads (after new_group (herd "K" ok [])) !! 0%nat
    = Some (Exited (ExitLeader "V" true None))
  ∧ ∃ t, joined (gh (after new_group (herd "K" ok []))) !! t
         = Some (0%nat, 0%nat).
Proof.
  assert (Hr : reachable (herd "K" ok []) (after new_group (herd "K" ok [])))
    by (left; vm_compute; reflexivity).
  assert (Ht : threads (after new_group (herd "K" ok [])) !! 0%nat
               = Some (Exited (ExitLeader "V" true None)))
    by (vm_compute; reflexivity).
  assert (Ho : owner (gh (after new_group (herd "K" ok []))) !! 0%nat
               = Some 0%nat) by (vm_compute; reflexivity).
  split; [exact Hr|]. split; [exact Ht|].
  exact (shared_means_joined _ _ _ _ _ _ Hr Ht Ho).
Defined.





(** The second call runs alone on the record the first one left in the
    pool, and leaves it there again. *)
Lemma solo_call_witness :
  reachable second_call (after new_group second_call)
  ∧ threads (after new_group second_call) !! 1%nat = Some (DoStart 0 "K2")
  ∧ ∃ s' c,
      run [Fn 1 (FnReturn "W" None) []; Deferred 1; Recycle 1; Ret 1]
        (after new_group (second_call ++ [Lock 1 (PickItem 0)])%list) = Some s'
      ∧ threads s' !! 1%nat = Some (Exited (ExitLeader "W" false None))
      ∧ heap s' = <[c := new_call]> (heap (after new_group second_call)).
Proof.
  assert (Hr : reachable second_call (after new_group second_call))
    by (left; vm_compute; reflexivity).
  assert (Ht : threads (after new_group second_call) !! 1%nat
               = Some (DoStart 0 "K2")) by (vm_compute; reflexivity).
  destruct (solo_call second_call (after new_group second_call)
              (after new_group (second_call ++ [Lock 1 (PickItem 0)])%list)
              1%nat 0%nat "K2" (PickItem 0) "W" None [] Hr Ht)
    as (s' & c & Hs & Hpc & _ & _ & _ & Hsame);
    [vm_compute; reflexivity|vm_compute; reflexivity|].
  destruct (Hsame 0%nat eq_refl) as [_ Hheap].
  split; [exact Hr|]. split; [exact Ht|]. exists s', c.
  split; [exact Hs|]. split; [exact Hpc|exact Hheap].
Defined.
